(** * gitcache: the fetch/archive orchestration engine of common.go

    A shallow embedding of [github.com/continusec/gitcache] (file
    [common.go]; [cmd/gitcache/main.go] carries a verbatim copy of the same
    functions) together with the properties the specification states
    about it.

    Layout:
    - [Hex], [SHA256], [Path], [Strings]: the pure library functions the
      code calls ([encoding/hex], [crypto/sha256], [path], [strings]);
    - [Tar]: headers and the decoded view of a tar stream;
    - the world (file system, subprocess oracle, sinks, event trace) and
      the state monad the Go functions run in;
    - the six functions of [common.go], and the HTTP handler of
      [main.go] that calls them;
    - the theorems. *)

From Stdlib Require Import ZArith Lia List Bool.
From Stdlib.Strings Require Import String Ascii Byte.
From stdpp Require Import gmap strings list.
Import ListNotations.

Local Open Scope Z_scope.

(** ** encoding/hex *)

Module Hex.

(** [hextable] of encoding/hex. *)
Definition hextable : string := "0123456789abcdef".

Definition hexdigit (n : N) : ascii :=
  match String.get (N.to_nat n) hextable with
  | Some c => c
  | None => "0"%char
  end.

(** [hex.EncodeToString]: two digits per byte, high nibble first. *)
Fixpoint EncodeToString (src : list byte) : string :=
  match src with
  | [] => EmptyString
  | b :: rest =>
      String (hexdigit (N.shiftr (Byte.to_N b) 4))
        (String (hexdigit (N.land (Byte.to_N b) 15))
           (EncodeToString rest))
  end.

Definition is_lower_hex (c : ascii) : bool :=
  let n := N_of_ascii c in
  ((48 <=? n) && (n <=? 57) || (97 <=? n) && (n <=? 102))%N.

End Hex.

(** ** crypto/sha256 *)

Module SHA256.

Definition mask32 : Z := 0xffffffff.
Definition u32 (x : Z) : Z := Z.land x mask32.
Definition add32 (x y : Z) : Z := u32 (x + y).
Definition not32 (x : Z) : Z := Z.lxor x mask32.

(** [bits.RotateLeft32(x, -k)] *)
Definition rotr (k x : Z) : Z :=
  u32 (Z.lor (Z.shiftr x k) (Z.shiftl x (32 - k))).

(** The round constants [_K]: the first thirty-two bits of the
    fractional parts of the cube roots of the first sixty-four primes
    (FIPS 180-4, 4.2.2). The table is computed once, here. *)
Definition is_prime (n : nat) : bool :=
  forallb (fun d => negb (n mod d =? 0)%nat) (seq 2 (n - 2)).

Definition primes : list Z :=
  map Z.of_nat (filter is_prime (seq 2 310)).

(** The integer cube root of [n], found bit by bit below bit [i]. *)
Fixpoint cbrt_bits (i : nat) (n r : Z) : Z :=
  match i with
  | O => r
  | S i' =>
      let c := r + 2 ^ Z.of_nat i' in
      cbrt_bits i' n (if c * c * c <=? n then c else r)
  end.

Definition cbrt_frac32 (p : Z) : Z := u32 (cbrt_bits 40 (p * 2 ^ 96) 0).

Definition _K : list Z := Eval vm_compute in map cbrt_frac32 primes.

(** The digest state [dig.h]. *)
Record digest := Digest {
  h0 : Z; h1 : Z; h2 : Z; h3 : Z; h4 : Z; h5 : Z; h6 : Z; h7 : Z }.

Definition init : digest :=
  Digest 0x6a09e667 0xbb67ae85 0x3c6ef372 0xa54ff53a
         0x510e527f 0x9b05688c 0x1f83d9ab 0x5be0cd19.

Definition at_ (w : list Z) (i : nat) : Z := nth i w 0.

(** Big-endian load of the sixteen words of one chunk. *)
Fixpoint load_words (n : nat) (p : list Z) : list Z :=
  match n with
  | O => []
  | S n' =>
      match p with
      | b0 :: b1 :: b2 :: b3 :: rest =>
          Z.lor (Z.lor (Z.lor (Z.shiftl b0 24) (Z.shiftl b1 16))
                   (Z.shiftl b2 8)) b3
          :: load_words n' rest
      | _ => []
      end
  end.

(** [w[i] = t1 + w[i-7] + t2 + w[i-16]] for i = 16..63. *)
Fixpoint extend (n : nat) (w : list Z) : list Z :=
  match n with
  | O => w
  | S n' =>
      let i := List.length w in
      let v1 := at_ w (i - 2) in
      let t1 := Z.lxor (Z.lxor (rotr 17 v1) (rotr 19 v1)) (Z.shiftr v1 10) in
      let v2 := at_ w (i - 15) in
      let t2 := Z.lxor (Z.lxor (rotr 7 v2) (rotr 18 v2)) (Z.shiftr v2 3) in
      extend n' (w ++ [add32 (add32 (add32 t1 (at_ w (i - 7))) t2)
                         (at_ w (i - 16))])
  end.

Definition round (s : digest) (k w : Z) : digest :=
  let '(Digest a b c d e f g h) := s in
  let t1 :=
    add32 (add32 (add32 (add32 h
      (Z.lxor (Z.lxor (rotr 6 e) (rotr 11 e)) (rotr 25 e)))
      (Z.lxor (Z.land e f) (Z.land (not32 e) g))) k) w in
  let t2 :=
    add32 (Z.lxor (Z.lxor (rotr 2 a) (rotr 13 a)) (rotr 22 a))
          (Z.lxor (Z.lxor (Z.land a b) (Z.land a c)) (Z.land b c)) in
  Digest (add32 t1 t2) a b c (add32 d t1) e f g.

Fixpoint rounds (s : digest) (ks ws : list Z) : digest :=
  match ks, ws with
  | k :: ks', w :: ws' => rounds (round s k w) ks' ws'
  | _, _ => s
  end.

(** One iteration of the outer loop of [blockGeneric]. *)
Definition block1 (dig : digest) (chunk : list Z) : digest :=
  let w := extend 48 (load_words 16 chunk) in
  let r := rounds dig _K w in
  Digest (add32 (h0 dig) (h0 r)) (add32 (h1 dig) (h1 r))
         (add32 (h2 dig) (h2 r)) (add32 (h3 dig) (h3 r))
         (add32 (h4 dig) (h4 r)) (add32 (h5 dig) (h5 r))
         (add32 (h6 dig) (h6 r)) (add32 (h7 dig) (h7 r)).

Fixpoint block (n : nat) (dig : digest) (p : list Z) : digest :=
  match n with
  | O => dig
  | S n' => block n' (block1 dig (firstn 64 p)) (skipn 64 p)
  end.

Definition be_bytes (n : nat) (x : Z) : list Z :=
  map (fun i => Z.land (Z.shiftr x (8 * Z.of_nat i)) 255) (rev (seq 0 n)).

(** Padding of [checkSum]: 0x80, zeros up to 56 mod 64, then the bit
    length as a big-endian uint64. *)
Definition pad (len : Z) : list Z :=
  let r := len mod 64 in
  let zeros := if r <? 56 then 56 - r else 64 + 56 - r in
  (128 :: repeat 0 (Z.to_nat (zeros - 1)))
    ++ be_bytes 8 (Z.land (Z.shiftl len 3) 0xffffffffffffffff).

Definition byte_of_Z (z : Z) : byte :=
  match Byte.of_N (Z.to_N (Z.land z 255)) with
  | Some b => b
  | None => x00
  end.

Definition Z_of_byte (b : byte) : Z := Z.of_N (Byte.to_N b).

Definition out_words (d : digest) : list Z :=
  [h0 d; h1 d; h2 d; h3 d; h4 d; h5 d; h6 d; h7 d].

(** [sha256.Sum256]. *)
Definition Sum256 (data : list byte) : list byte :=
  let msg := map Z_of_byte data in
  let p := msg ++ pad (Z.of_nat (List.length msg)) in
  let d := block (List.length p / 64)%nat init p in
  map byte_of_Z (flat_map (be_bytes 4) (out_words d)).

End SHA256.

(** ** path and path/filepath (Unix) *)

Module Path.

(** The components of a path between its slashes. *)
Fixpoint split (s : string) : list string :=
  match s with
  | EmptyString => [EmptyString]
  | String c rest =>
      if Ascii.eqb c "/" then EmptyString :: split rest
      else match split rest with
           | hd :: tl => String c hd :: tl
           | [] => [String c EmptyString]
           end
  end.

Definition rooted (p : string) : bool :=
  match p with
  | String c _ => Ascii.eqb c "/"
  | EmptyString => false
  end.

(** The body of the loop of [Clean], one component at a time; [out] is
    the output buffer as a stack of components, last one first. *)
Definition clean_step (is_rooted : bool) (out : list string) (c : string)
  : list string :=
  if String.eqb c "" then out
  else if String.eqb c "." then out
  else if String.eqb c ".." then
    match out with
    | top :: below =>
        if String.eqb top ".." then ".."%string :: out else below
    | [] => if is_rooted then [] else [".."%string]
    end
  else c :: out.

(** [path.Clean]. *)
Definition Clean (p : string) : string :=
  if String.eqb p "" then "."%string
  else
    let out := fold_left (clean_step (rooted p)) (split p) [] in
    let body := String.concat "/" (rev out) in
    if rooted p then String "/" body
    else if String.eqb body "" then "."%string else body.

(** [path.Join], and [filepath.Join] where the separator is a slash. *)
Definition Join (elem : list string) : string :=
  match filter (fun e => negb (String.eqb e "")) elem with
  | [] => ""%string
  | parts => Clean (String.concat "/" parts)
  end.

(** The path itself and every proper ancestor of it, outermost first:
    what [os.MkdirAll] walks. *)
Fixpoint prefixes (acc : string) (cs : list string) : list string :=
  match cs with
  | [] => []
  | c :: rest =>
      let here := if String.eqb acc "" then c
                  else if String.eqb acc "/" then (acc ++ c)%string
                  else (acc ++ "/" ++ c)%string in
      here :: prefixes here rest
  end.

Definition ancestors (p : string) : list string :=
  let cs := filter (fun e => negb (String.eqb e "")) (split p) in
  prefixes (if rooted p then "/" else "")%string cs.

End Path.

(** ** strings *)

Module Strings.

(** White space in the ASCII range, as the fast path of
    [strings.TrimSpace] has it. The delegate tool prints a hexadecimal
    object name and a newline, so the Unicode fallback is not modelled:
    bytes of 0x80 and above count as non-space. *)
Definition isSpace (c : ascii) : bool :=
  let n := N_of_ascii c in
  ((n =? 9) || (n =? 10) || (n =? 11) || (n =? 12) || (n =? 13)
   || (n =? 32))%N.

Fixpoint TrimLeft (s : string) : string :=
  match s with
  | String c rest => if isSpace c then TrimLeft rest else s
  | EmptyString => EmptyString
  end.

Fixpoint TrimRight (s : string) : string :=
  match s with
  | EmptyString => EmptyString
  | String c rest =>
      match TrimRight rest with
      | EmptyString => if isSpace c then EmptyString
                       else String c EmptyString
      | r => String c r
      end
  end.

(** [strings.TrimSpace]. *)
Definition TrimSpace (s : string) : string := TrimRight (TrimLeft s).

(** [strings.Join]. *)
Definition Join (elems : list string) (sep : string) : string :=
  String.concat sep elems.

End Strings.

(** ** Errors

    Go's [error] is an interface whose zero value [nil] means success:
    a value of type [error] is an [option err] here. *)

Inductive err : Type :=
  | io_EOF
  | io_ErrUnexpectedEOF
  | io_ErrShortWrite
  | io_ErrClosedPipe
  | tar_ErrWriteTooLong
  | tar_ErrMissedWriting (n : Z)
  | tar_ErrHeader
  | os_ErrNotExist
  | os_ErrPermission
  | os_ErrNotDir
  | os_ErrIsDir
  | os_ErrClosed
  | exec_ErrNotFound
  | exec_ErrStdoutSet
  | exec_ExitError (code : Z)
  | errors_New (msg : string).

Abbreviation error := (option err).
Abbreviation nil_error := (@None err).

#[global] Instance err_eq_dec : EqDecision err.
Proof. solve_decision. Defined.

(** [os.IsNotExist]. *)
Definition os_IsNotExist (e : err) : bool :=
  match e with os_ErrNotExist => true | _ => false end.

(** ** archive/tar: headers and decoded streams *)

Module Tar.

(** [time.Time], as seconds and nanoseconds since the Unix epoch. *)
Record Time := mkTime { unix_sec : Z; unix_nsec : Z }.

(** [time.Unix(sec, nsec)]. *)
Definition time_Unix (sec nsec : Z) : Time := mkTime sec nsec.

Record Header := mkHeader {
  Typeflag : ascii;
  Name : string;
  Linkname : string;
  Size : Z;
  Mode : Z;
  Uid : Z;
  Gid : Z;
  Uname : string;
  Gname : string;
  ModTime : Time;
  AccessTime : Time;
  ChangeTime : Time }.

(** The assignment [header.ModTime = t]. *)
Definition set_ModTime (t : Time) (h : Header) : Header :=
  mkHeader (Typeflag h) (Name h) (Linkname h) (Size h) (Mode h) (Uid h)
    (Gid h) (Uname h) (Gname h) t (AccessTime h) (ChangeTime h).

(** [isHeaderOnlyType]: links, devices, directories and fifos carry no
    data, whatever their size field says. *)
Definition isHeaderOnlyType (flag : ascii) : bool :=
  let n := N_of_ascii flag in ((49 <=? n) && (n <=? 54))%N.

(** What a [tar.Reader] presents of its input: a sequence of entries,
    each a header and the data bytes the input really holds for it, and
    the error that ends the sequence ([io.EOF] after a well-formed
    archive, anything else for a damaged one). *)
Inductive Stream : Type :=
  | End (e : err)
  | Entry (h : Header) (body : list byte) (rest : Stream).

(** [blockPadding]: bytes needed to round the data up to 512. *)
Definition blockPadding (size : Z) : Z := (- size) mod 512.

Definition zeroBlock (n : Z) : list byte := repeat x00 (Z.to_nat n).

(** The same stream with every modification time set to [t]. *)
Fixpoint retime (t : Time) (s : Stream) : Stream :=
  match s with
  | End e => End e
  | Entry h body rest => Entry (set_ModTime t h) body (retime t rest)
  end.

End Tar.

(** ** The platform: what lies outside the Go code

    The delegate tool runs as a subprocess and the tar and gzip codecs
    are library code. They are taken as an interface, so that every
    theorem holds whatever they do:
    - [Repo] is all the state the delegate tool sees and changes (the
      mirrors under the cache directory, the upstream repositories, its
      clock);
    - [exec argv r] runs one subprocess to completion;
    - [tar_decode] is the view [tar.Reader] gives of a byte stream;
    - [tar_header] is the block(s) [tar.Writer] formats for a header, or
      the error it reports for a header it cannot encode;
    - [gzip_encode] is the compressed form of a complete plain text. *)

Record ProcResult := mkProc {
  start_err : error;          (* the process could not be started *)
  proc_stdout : list byte;    (* everything it wrote on standard output *)
  exit_err : error            (* what [Wait] reports: nil on exit status 0 *)
}.

Class Platform := {
  Repo : Type;
  exec : list string -> Repo -> ProcResult * Repo;
  tar_decode : list byte -> Tar.Stream;
  tar_header : Tar.Header -> err + list byte;
  gzip_encode : list byte -> list byte
}.

(** ** The world *)

Inductive node := Dir | File (data : list byte).

(** An [io.Writer] the code holds: the stream the caller passed in, a
    file it created, or a gzip writer around one of these. *)
Inductive Writer :=
  | callerStream
  | osFile (path : string)
  | gzipWriter (under : Writer).

(** What a run does to the outside, in order: system calls and
    subprocess executions. *)
Inductive Event :=
  | EvStat (path : string)
  | EvMkdirAll (path : string) (perm : Z)
  | EvCreate (path : string)
  | EvExec (argv : list string).

(** Ghost records of what the archive loop did: the headers it handed to
    the tar writer and, for each [io.CopyN], the bytes asked for and the
    bytes transferred. No code reads them. *)
Inductive Ghost :=
  | GhWriteHeader (h : Tar.Header)
  | GhCopyN (n written : Z).

Section Gitcache.

Context `{P : Platform}.

Record World := mkWorld {
  fs : gmap string node;         (* the file tree the [os] calls see *)
  fs_fault : gmap string err;    (* paths at which an [os] call fails *)
  repo_state : Repo;
  os_Stdout : list byte;         (* bytes written to [os.Stdout] *)
  out_buf : list byte;           (* bytes the caller's stream received *)
  out_room : option nat;         (* bytes it still accepts; None: all *)
  gz_plain : list byte;          (* plain text held by the gzip writer *)
  log_lines : list string;       (* lines printed by package [log] *)
  trace : list Event;            (* newest event first *)
  ghost : list Ghost             (* newest record first *)
}.

Definition with_fs (f : gmap string node) (w : World) : World :=
  mkWorld f (fs_fault w) (repo_state w) (os_Stdout w) (out_buf w)
    (out_room w) (gz_plain w) (log_lines w) (trace w) (ghost w).
Definition with_repo (r : Repo) (w : World) : World :=
  mkWorld (fs w) (fs_fault w) r (os_Stdout w) (out_buf w)
    (out_room w) (gz_plain w) (log_lines w) (trace w) (ghost w).
Definition with_stdout (b : list byte) (w : World) : World :=
  mkWorld (fs w) (fs_fault w) (repo_state w) b (out_buf w)
    (out_room w) (gz_plain w) (log_lines w) (trace w) (ghost w).
Definition with_out (b : list byte) (room : option nat) (w : World)
  : World :=
  mkWorld (fs w) (fs_fault w) (repo_state w) (os_Stdout w) b
    room (gz_plain w) (log_lines w) (trace w) (ghost w).
Definition with_gz (b : list byte) (w : World) : World :=
  mkWorld (fs w) (fs_fault w) (repo_state w) (os_Stdout w) (out_buf w)
    (out_room w) b (log_lines w) (trace w) (ghost w).
Definition with_log (l : list string) (w : World) : World :=
  mkWorld (fs w) (fs_fault w) (repo_state w) (os_Stdout w) (out_buf w)
    (out_room w) (gz_plain w) l (trace w) (ghost w).
Definition emit (e : Event) (w : World) : World :=
  mkWorld (fs w) (fs_fault w) (repo_state w) (os_Stdout w) (out_buf w)
    (out_room w) (gz_plain w) (log_lines w) (e :: trace w) (ghost w).
Definition with_ghost (g : list Ghost) (w : World) : World :=
  mkWorld (fs w) (fs_fault w) (repo_state w) (os_Stdout w) (out_buf w)
    (out_room w) (gz_plain w) (log_lines w) (trace w) g.
Definition note (g : Ghost) (w : World) : World :=
  with_ghost (g :: ghost w) w.

(** *** The monad: a Go function is a state transformer on the world *)

Definition IO (A : Type) : Type := World -> A * World.

Definition ret {A} (a : A) : IO A := fun w => (a, w).
Definition bind {A B} (m : IO A) (k : A -> IO B) : IO B :=
  fun w => let '(a, w') := m w in k a w'.
Definition modify (f : World -> World) : IO unit := fun w => (tt, f w).
Definition gets {A} (f : World -> A) : IO A := fun w => (f w, w).

#[global] Instance io_ret : MRet IO := @ret.
#[global] Instance io_bind : MBind IO := fun A B k m => bind m k.

(** *** package log *)

Definition log_Println (line : string) : IO unit :=
  modify (fun w => with_log (log_lines w ++ [line]) w).

(** *** package os *)

(** [os.Stat], of which the code keeps only the error. *)
Definition os_Stat (path : string) : IO error :=
  modify (emit (EvStat path)) ;;
  w ← gets id;
  match fs_fault w !! path with
  | Some e => ret (Some e)
  | None =>
      match fs w !! path with
      | Some _ => ret nil_error
      | None => ret (Some os_ErrNotExist)
      end
  end.

(** One step of [os.MkdirAll]: make [d] a directory unless it is one. *)
Definition mkdir1 (acc : err + gmap string node) (d : string)
  : err + gmap string node :=
  match acc with
  | inl e => inl e
  | inr f =>
      match f !! d with
      | Some (File _) => inl os_ErrNotDir
      | Some Dir => inr f
      | None => inr (<[d := Dir]> f)
      end
  end.

(** [os.MkdirAll]: every missing parent, outermost first, and then the
    directory itself. *)
Definition os_MkdirAll (path : string) (perm : Z) : IO error :=
  modify (emit (EvMkdirAll path perm)) ;;
  w ← gets id;
  match fs_fault w !! path with
  | Some e => ret (Some e)
  | None =>
      match fold_left mkdir1 (Path.ancestors path ++ [path]) (inr (fs w))
      with
      | inl e => ret (Some e)
      | inr f => modify (with_fs f) ;; ret nil_error
      end
  end.

(** [os.Create]: the file is created, or truncated when it exists. *)
Definition os_Create (path : string) : IO (Writer * error) :=
  modify (emit (EvCreate path)) ;;
  w ← gets id;
  match fs_fault w !! path with
  | Some e => ret (osFile path, Some e)
  | None =>
      match fs w !! path with
      | Some Dir => ret (osFile path, Some os_ErrIsDir)
      | _ => modify (with_fs (<[path := File []]> (fs w))) ;;
             ret (osFile path, nil_error)
      end
  end.

(** [os.Stdout.Write]. *)
Definition os_Stdout_Write (b : list byte) : IO unit :=
  modify (fun w => with_stdout (os_Stdout w ++ b) w).

(** *** io.Writer *)

Definition len (b : list byte) : Z := Z.of_nat (List.length b).

(** [w.Write(b)]: the number of bytes taken and the error. *)
Definition Write (wr : Writer) (b : list byte) : IO (Z * error) :=
  match wr with
  | callerStream =>
      w ← gets id;
      match out_room w with
      | None =>
          modify (with_out (out_buf w ++ b) None) ;; ret (len b, nil_error)
      | Some room =>
          let taken := firstn room b in
          modify (with_out (out_buf w ++ taken)
                    (Some (room - List.length taken)%nat)) ;;
          ret (len taken,
               if (List.length b <=? room)%nat then nil_error
               else Some io_ErrClosedPipe)
      end
  | osFile path =>
      w ← gets id;
      match fs w !! path with
      | Some (File data) =>
          modify (with_fs (<[path := File (data ++ b)]> (fs w))) ;;
          ret (len b, nil_error)
      | _ => ret (0, Some os_ErrClosed)
      end
  | gzipWriter _ =>
      modify (fun w => with_gz (gz_plain w ++ b) w) ;;
      ret (len b, nil_error)
  end.

(** [gzip.NewWriter]: nothing is written before the first flush. *)
Definition gzip_NewWriter (under : Writer) : IO Writer :=
  modify (with_gz []) ;; ret (gzipWriter under).

(** [gzipper.Close()]: the compressed stream goes to the writer below.
    The whole plain text is held until then, which is one of the
    schedules the real compressor may follow. *)
Definition gzip_Close (wr : Writer) : IO error :=
  match wr with
  | gzipWriter under =>
      w ← gets id;
      '(_, e) ← Write under (gzip_encode (gz_plain w));
      ret e
  | _ => ret nil_error
  end.

(** [defer d] in a function whose remaining body is [body]: the body
    runs, then [d], and the body's result is what the function
    returns. *)
Definition defer {A B} (d : IO B) (body : IO A) : IO A :=
  r ← body; d ;; ret r.

(** [f.Close()] on a file: the bytes are in the file already. *)
Definition os_File_Close (f : Writer) : IO error := ret nil_error.

(** *** os/exec *)

Record Cmd := mkCmd {
  argv : list string;
  stdout_piped : bool;
  result : option ProcResult   (* set once the process was started *)
}.

(** [exec.Command]. *)
Definition exec_Command (name : string) (args : list string) : Cmd :=
  mkCmd (name :: args) false None.

(** [cmd.StdoutPipe()]: refused when standard output is taken or the
    process runs already. *)
Definition Cmd_StdoutPipe (c : Cmd) : IO (Cmd * error) :=
  if stdout_piped c then ret (c, Some exec_ErrStdoutSet)
  else match result c with
       | Some _ => ret (c, Some exec_ErrStdoutSet)
       | None => ret (mkCmd (argv c) true (result c), nil_error)
       end.

(** [cmd.Start()]. The subprocess is run to completion here; the reads
    from its pipe that follow see what it wrote. *)
Definition Cmd_Start (c : Cmd) : IO (Cmd * error) :=
  modify (emit (EvExec (argv c))) ;;
  w ← gets id;
  let '(r, st) := exec (argv c) (repo_state w) in
  modify (with_repo st) ;;
  ret (mkCmd (argv c) (stdout_piped c) (Some r), start_err r).

(** [cmd.Wait()]. *)
Definition Cmd_Wait (c : Cmd) : IO error :=
  match result c with
  | Some r => ret (exit_err r)
  | None => ret (Some exec_ErrNotFound)
  end.

(** What the reader of the pipe gets. *)
Definition Cmd_pipe (c : Cmd) : list byte :=
  match result c with
  | Some r => proc_stdout r
  | None => []
  end.

(** [cmd.Run()]: [Start], then [Wait]. *)
Definition Cmd_Run (c : Cmd) : IO error :=
  '(c, e) ← Cmd_Start c;
  match e with
  | Some _ => ret e
  | None => Cmd_Wait c
  end.

(** [cmd.Output()]: [Run] with standard output captured. *)
Definition Cmd_Output (c : Cmd) : IO (list byte * error) :=
  if stdout_piped c then ret ([], Some exec_ErrStdoutSet)
  else
    '(c, e) ← Cmd_Start c;
    match e with
    | Some _ => ret (Cmd_pipe c, e)
    | None => e ← Cmd_Wait c; ret (Cmd_pipe c, e)
    end.

(** *** archive/tar: the writer *)

Record TarWriter := mkTW {
  tw_w : Writer;     (* the writer below *)
  tw_nb : Z;         (* data bytes the current entry still expects *)
  tw_pad : Z;        (* padding owed after them *)
  tw_err : error     (* sticky error *)
}.

(** [tar.NewWriter]. *)
Definition tar_NewWriter (w : Writer) : TarWriter := mkTW w 0 0 None.

(** [tw.Flush()]. *)
Definition tw_Flush (tw : TarWriter) : IO (error * TarWriter) :=
  match tw_err tw with
  | Some e => ret (Some e, tw)
  | None =>
      if 0 <? tw_nb tw then ret (Some (tar_ErrMissedWriting (tw_nb tw)), tw)
      else
        '(_, e) ← Write (tw_w tw) (Tar.zeroBlock (tw_pad tw));
        match e with
        | Some _ => ret (e, mkTW (tw_w tw) (tw_nb tw) (tw_pad tw) e)
        | None => ret (nil_error, mkTW (tw_w tw) (tw_nb tw) 0 None)
        end
  end.

(** [tw.WriteHeader(hdr)]: finish the previous entry, write the header
    block(s), and expect [hdr.Size] bytes of data unless the type
    carries none. *)
Definition tw_WriteHeader (tw : TarWriter) (hdr : Tar.Header)
  : IO (error * TarWriter) :=
  modify (note (GhWriteHeader hdr)) ;;
  '(e, tw) ← tw_Flush tw;
  match e with
  | Some _ => ret (e, tw)
  | None =>
      match tar_header hdr with
      | inl e => ret (Some e, mkTW (tw_w tw) (tw_nb tw) (tw_pad tw) (Some e))
      | inr blk =>
          '(_, e) ← Write (tw_w tw) blk;
          match e with
          | Some _ => ret (e, mkTW (tw_w tw) (tw_nb tw) (tw_pad tw) e)
          | None =>
              let size := if Tar.isHeaderOnlyType (Tar.Typeflag hdr)
                          then 0 else Tar.Size hdr in
              ret (nil_error,
                   mkTW (tw_w tw) size (Tar.blockPadding size) None)
          end
      end
  end.

(** [tw.Write(b)]: at most the bytes the entry still expects. *)
Definition tw_Write (tw : TarWriter) (b : list byte)
  : IO (Z * error * TarWriter) :=
  match tw_err tw with
  | Some e => ret (0, Some e, tw)
  | None =>
      let overwrite := tw_nb tw <? len b in
      let b := if overwrite then firstn (Z.to_nat (tw_nb tw)) b else b in
      '(n, e) ← (if 0 <? len b then Write (tw_w tw) b
                 else ret (0, nil_error));
      let tw := mkTW (tw_w tw) (tw_nb tw - n) (tw_pad tw) (tw_err tw) in
      match e with
      | Some _ => ret (n, e, mkTW (tw_w tw) (tw_nb tw) (tw_pad tw) e)
      | None =>
          if overwrite then ret (n, Some tar_ErrWriteTooLong, tw)
          else ret (n, nil_error, tw)
      end
  end.

(** [tw.Close()]: flush, then the end-of-archive trailer of two zero
    blocks, each written only if nothing failed before it. *)
Definition tw_Close (tw : TarWriter) : IO error :=
  match tw_err tw with
  | Some e => ret (Some e)
  | None =>
      '(e, tw) ← tw_Flush tw;
      match e with
      | Some _ => ret e
      | None =>
          '(_, e) ← Write (tw_w tw) (Tar.zeroBlock 512);
          match e with
          | Some _ => ret e
          | None => '(_, e) ← Write (tw_w tw) (Tar.zeroBlock 512); ret e
          end
      end
  end.

(** *** package io *)

(** [io.Copy(dst, io.LimitReader(src, n))] where [src] is the tar
    reader standing on an entry that declares [nb] data bytes and whose
    input holds [body]. The source hands over all it has in one read:
    the bytes, then [io.EOF] at the limit or at the end of the entry,
    [io.ErrUnexpectedEOF] when the input ends inside the entry. *)
Definition io_Copy_limited (dst : TarWriter) (body : list byte) (nb n : Z)
  : IO (Z * error * TarWriter) :=
  let avail := Z.min nb (len body) in
  let data := firstn (Z.to_nat (Z.min n avail)) body in
  let er := if n <=? avail then io_EOF
            else if avail <? nb then io_ErrUnexpectedEOF else io_EOF in
  '(nw, ew, dst) ← (if 0 <? len data then tw_Write dst data
                    else ret (0, nil_error, dst));
  match ew with
  | Some _ => ret (nw, ew, dst)
  | None =>
      if negb (nw =? len data) then ret (nw, Some io_ErrShortWrite, dst)
      else ret (nw, if decide (er = io_EOF) then nil_error else Some er, dst)
  end.

(** [io.CopyN(dst, src, n)]. *)
Definition io_CopyN (dst : TarWriter) (body : list byte) (nb n : Z)
  : IO (Z * error * TarWriter) :=
  '(written, e, dst) ← io_Copy_limited dst body nb n;
  modify (note (GhCopyN n written)) ;;
  if written =? n then ret (n, nil_error, dst)
  else if (written <? n) && bool_decide (e = nil_error)
       then ret (written, Some io_EOF, dst)
       else ret (written, e, dst).

(** ** common.go *)

Definition makeCommand (cmd : string) (args : list string) : IO Cmd :=
  log_Println (cmd ++ " " ++ Strings.Join args " ")%string ;;
  ret (exec_Command cmd args).

Definition fetchUpstream (gd repo branch : string) : IO error :=
  c ← makeCommand "git"
        ["--git-dir"; gd; "fetch"; repo; ("+" ++ branch ++ ":" ++ branch)%string];
  Cmd_Run c.

(** The [for] loop of [sendDownstream], by recursion on what
    [tarIn.Next()] still has to deliver. *)
Fixpoint sendDownstream_loop (cmd : Cmd) (tarIn : Tar.Stream)
    (tarOut : TarWriter) : IO (error * TarWriter) :=
  match tarIn with
  | Tar.End e =>
      if decide (e = io_EOF)
      then (e ← Cmd_Wait cmd; ret (e, tarOut)) (* normal exit point *)
      else ret (Some e, tarOut)
  | Tar.Entry header body rest =>
      (* Reset modification time to constant value *)
      let header := Tar.set_ModTime (Tar.time_Unix 0 0) header in
      '(e, tarOut) ← tw_WriteHeader tarOut header;
      match e with
      | Some _ => ret (e, tarOut)
      | None =>
          let nb := if Tar.isHeaderOnlyType (Tar.Typeflag header)
                    then 0 else Tar.Size header in
          '(written, e, tarOut) ←
             io_CopyN tarOut body nb (Tar.Size header);
          match e with
          | Some _ => ret (e, tarOut)
          | None =>
              if negb (written =? Tar.Size header) then ret (e, tarOut)
              else sendDownstream_loop cmd rest tarOut
          end
      end
  end.

Definition sendDownstream (gd commit tree : string) (out : Writer)
  : IO error :=
  cmd ← makeCommand "git"
          ["--git-dir"; gd; "archive"; "--format"; "tar";
           (commit ++ ":" ++ tree)%string];
  '(cmd, e) ← Cmd_StdoutPipe cmd;
  match e with
  | Some _ => ret e
  | None =>
      '(cmd, e) ← Cmd_Start cmd;
      match e with
      | Some _ => ret e
      | None =>
          let tarIn := tar_decode (Cmd_pipe cmd) in
          let tarOut := tar_NewWriter out in
          '(e, tarOut) ← sendDownstream_loop cmd tarIn tarOut;
          tw_Close tarOut ;;            (* defer tarOut.Close() *)
          ret e
      end
  end.

Definition getHeadCommit (gd repo branch : string) : IO (string * error) :=
  e ← fetchUpstream gd repo branch;
  match e with
  | Some _ => ret (""%string, e)
  | None =>
      c ← makeCommand "git" ["--git-dir"; gd; "rev-parse"; branch];
      '(commitHex, e) ← Cmd_Output c;
      match e with
      | Some _ => ret (""%string, e)
      | None =>
          ret (Strings.TrimSpace (string_of_list_byte commitHex), nil_error)
      end
  end.

(** The directory name of lines 125-126: the hexadecimal SHA-256 of the
    repository string. *)
Definition cacheKey (repo : string) : string :=
  Hex.EncodeToString (SHA256.Sum256 (list_byte_of_string repo)).

(** Return git workspace dir that is ready to go. *)
Definition preflightAndInit (repo branch format cacheDir : string)
  : IO (string * error) :=
  if (String.length repo =? 0)%nat
  then ret (""%string, Some (errors_New "Must specify repo"))
  else if (String.length branch =? 0)%nat
  then ret (""%string, Some (errors_New
    "Must specify branch, even if you know the commit (we may need it to fetch)"))
  else if (String.length format =? 0)%nat
  then ret (""%string, Some (errors_New "Must specify format, e.g. tgz"))
  else if negb (String.eqb format "tar") && negb (String.eqb format "tgz")
  then ret (""%string, Some (errors_New "Format must be tar or tgz for now"))
  else
    (* Make sure workspace exists *)
    let gd := Path.Join [cacheDir; cacheKey repo] in
    e ← os_Stat gd;
    match e with
    | Some e' =>
        if os_IsNotExist e' then
          e ← os_MkdirAll gd 493; (* 0755 *)
          match e with
          | Some _ => ret (""%string, e)
          | None =>
              c ← makeCommand "git" ["--git-dir"; gd; "init"; "--bare"];
              e ← Cmd_Run c;
              match e with
              | Some _ => ret (""%string, e)
              | None => ret (gd, nil_error)
              end
          end
        else ret (""%string, e)
    | None => ret (gd, nil_error)
    end.

(** Lines 184-200 of [FetchLatest]: try, and if we have not fetched
    already, fetch and try one more time. *)
Definition FetchLatest_send (gd repo branch commit tree : string)
    (haveFetched : bool) (w : Writer) : IO error :=
  (* Optimistically try, will fail if we don't have the commit *)
  e ← sendDownstream gd commit tree w;
  match e with
  | None => ret nil_error
  | Some _ =>
      if haveFetched then ret e
      else
        (* If we haven't fetched already, try one more time *)
        e ← fetchUpstream gd repo branch;
        match e with
        | Some _ => ret e
        | None => sendDownstream gd commit tree w
        end
  end.

(** Lines 163-182 of [FetchLatest], and then the attempts: the sink is
    the caller's stream or a file created under outputDir, wrapped in a
    gzip writer for tgz; the deferred [Close] calls run last to first. *)
Definition FetchLatest_sink (gd repo branch commit tree format : string)
    (haveFetched : bool) (outputDir : string) (ourOutput : Writer)
  : IO error :=
let rest (w : Writer) : IO error :=
  if String.eqb format "tgz" then
    gzipper ← gzip_NewWriter w;
    defer (gzip_Close gzipper)
      (FetchLatest_send gd repo branch commit tree haveFetched gzipper)
  else
    FetchLatest_send gd repo branch commit tree haveFetched w in
if (String.length outputDir =? 0)%nat then rest ourOutput
else
  let fpath := Path.Join [outputDir; (commit ++ "." ++ format)%string] in
  os_Stdout_Write (list_byte_of_string fpath) ;;
  '(f, e) ← os_Create fpath;
  match e with
  | Some _ => ret e
  | None => defer (os_File_Close f) (rest f)
  end.

(** If outputDir is empty, write to [ourOutput]. Else write the file
    into outputDir, and the name of the file to [os.Stdout]. *)
Definition FetchLatest (repo branch commit tree format cacheDir : string)
    (outputDir : string) (ourOutput : Writer) : IO error :=
'(gd, e) ← preflightAndInit repo branch format cacheDir;
match e with
| Some _ => ret e
| None =>
    let haveFetched := false in
    (* If no commit is specified, fetch latest and set. *)
    '(commit, haveFetched, e) ←
      (if (String.length commit =? 0)%nat then
         '(c, e) ← getHeadCommit gd repo branch;
         match e with
         | Some _ => ret (c, haveFetched, e)
         | None => ret (c, true, nil_error)
         end
       else ret (commit, haveFetched, nil_error));
    match e with
    | Some _ => ret e
    | None =>
        FetchLatest_sink gd repo branch commit tree format haveFetched
          outputDir ourOutput
    end
end.

(** ** cmd/gitcache/main.go: the HTTP handler

    [main.go] repeats the functions above word for word (its
    [fetchLatest] is [FetchLatest]) and serves them over HTTP. *)

(** The parsed form of a request: fields and values, first value
    first. *)
Definition Request : Type := list (string * string).

(** [r.FormValue(key)]: the first value of the field, or the empty
    string. *)
Definition FormValue (r : Request) (key : string) : string :=
  match List.find (fun kv => String.eqb (fst kv) key) r with
  | Some kv => snd kv
  | None => ""%string
  end.

(** [http.Error(w, msg, code)]: the message and a newline go to the
    body. The call itself is what the handler returns here: which status
    the client sees also depends on whether the body was written to
    before. *)
Definition http_Error (w : Writer) (msg : string) (code : Z)
  : IO (option (string * Z)) :=
  Write w (list_byte_of_string (msg ++ String "010" "")) ;;
  ret (Some (msg, code)).

(** The handler [makeHandleFetch(cacheDir)] returns, run on the response
    writer [w] and the request [r]; [Error] is the text [err.Error()] of
    an error. *)
Definition makeHandleFetch (Error : err -> string) (cacheDir : string)
    (w : Writer) (r : Request) : IO (option (string * Z)) :=
  e ← FetchLatest (FormValue r "repo") (FormValue r "branch")
        (FormValue r "commit") (FormValue r "tree") (FormValue r "format")
        cacheDir "" w;
  match e with
  | Some e' =>
      log_Println ("Error: " ++ Error e')%string ;;
      http_Error w (Error e') 400
  | None => ret None
  end.

End Gitcache.

Arguments World {P}.
Arguments IO {P}.

(** ** Vocabulary of the statements *)

(** The request fields [preflightAndInit] accepts. *)
Definition valid (repo branch format : string) : bool :=
  negb (String.eqb repo "") && negb (String.eqb branch "")
  && (String.eqb format "tar" || String.eqb format "tgz").




(** *** Names and directories *)

(** No slash in it. *)
Definition no_slash (s : string) : bool :=
forallb (fun c => negb (Ascii.eqb c "/")) (list_ascii_of_string s).

(** One path component that [Clean] keeps as it is. *)
Definition plain_name (s : string) : bool :=
negb (String.eqb s "") && negb (String.eqb s ".") && negb (String.eqb s "..")
&& no_slash s.

(** The entry [name] of the directory [dir], a cleaned path. *)
Definition child (dir name : string) : string :=
if String.eqb dir "/" then String "/" name
else if String.eqb dir "." then name
else (dir ++ String "/" name)%string.

(** The components [Clean] keeps on its stack. *)
Definition kept (c : string) : Prop :=
c <> ""%string /\ c <> "."%string /\ c <> "/"%string.

Section Vocabulary.

Context `{P : Platform}.

Definition init_argv (gd : string) : list string :=
  ["git"; "--git-dir"; gd; "init"; "--bare"]%string.
Definition fetch_argv (gd repo branch : string) : list string :=
  ["git"; "--git-dir"; gd; "fetch"; repo;
   ("+" ++ branch ++ ":" ++ branch)]%string.
Definition rev_parse_argv (gd branch : string) : list string :=
  ["git"; "--git-dir"; gd; "rev-parse"; branch]%string.
Definition archive_argv (gd commit tree : string) : list string :=
  ["git"; "--git-dir"; gd; "archive"; "--format"; "tar";
   (commit ++ ":" ++ tree)]%string.

(** The subprocesses a trace records, newest first. *)
Fixpoint execs (tr : list Event) : list (list string) :=
  match tr with
  | [] => []
  | EvExec a :: rest => a :: execs rest
  | _ :: rest => execs rest
  end.

(** What [Cmd.Run] reports for a finished process. *)
Definition run_err (r : ProcResult) : error :=
  match start_err r with
  | Some e => Some e
  | None => exit_err r
  end.

(** What [Cmd.Wait] reports. *)
Definition wait_err (c : Cmd) : error :=
match result c with
| Some r => exit_err r
| None => Some exec_ErrNotFound
end.

(** The line [makeCommand] logs for a command. *)
Definition log_line (argv : list string) : string :=
match argv with
| cmd :: args => (cmd ++ " " ++ Strings.Join args " ")%string
| [] => ""%string
end.

(** What the subprocess [argv] does when started in [w]. *)
Definition outcome (argv : list string) (w : World) : ProcResult :=
(exec argv (repo_state w)).1.

(** The world once [makeCommand] logged [argv] and the subprocess ran. *)
Definition launched (argv : list string) (w : World) : World :=
with_repo (exec argv (repo_state w)).2
  (emit (EvExec argv) (with_log (log_lines w ++ [log_line argv]) w)).

(** *** Sinks

    How a writer stands in a world: a file that was never created
    refuses everything, the caller's stream takes the bytes it has room
    for, everything else takes all it is given. *)
Inductive mode := Closed | Bounded (room : nat) | Open.

#[global] Instance mode_eq_dec : EqDecision mode.
Proof. solve_decision. Defined.

Definition sink_mode (out : Writer) (w : World) : mode :=
match out with
| callerStream =>
    match out_room w with None => Open | Some n => Bounded n end
| osFile p =>
    match fs w !! p with Some (File _) => Open | _ => Closed end
| gzipWriter _ => Open
end.

(** The bytes one [Write] of [b] gets through, and the error it reports. *)
Definition accepted (m : mode) (b : list byte) : list byte :=
match m with
| Closed => []
| Bounded n => firstn n b
| Open => b
end.

Definition refusal (m : mode) (b : list byte) : error :=
match m with
| Closed => Some os_ErrClosed
| Bounded n =>
    if (List.length b <=? n)%nat then nil_error else Some io_ErrClosedPipe
| Open => nil_error
end.

(** The world after the sink behind [out] took the bytes [bs]. *)
Definition absorb (out : Writer) (bs : list byte) (w : World) : World :=
match out with
| callerStream =>
    with_out (out_buf w ++ bs)
      (match out_room w with
       | None => None
       | Some n => Some (n - List.length bs)%nat
       end) w
| osFile p =>
    match fs w !! p with
    | Some (File d) => with_fs (<[p := File (d ++ bs)]> (fs w)) w
    | _ => w
    end
| gzipWriter _ => with_gz (gz_plain w ++ bs) w
end.

(** The same, with the ghost records [g] (newest first) added. *)
Definition stepped (out : Writer) (bs : list byte) (g : list Ghost)
  (w : World) : World :=
with_ghost (g ++ ghost w) (absorb out bs w).

(** The bytes the sink behind [out] holds. *)
Definition content (out : Writer) (w : World) : list byte :=
match out with
| callerStream => out_buf w
| osFile p => match fs w !! p with Some (File d) => d | _ => [] end
| gzipWriter _ => gz_plain w
end.

Definition agree (out : Writer) (w1 w2 : World) : Prop :=
sink_mode out w1 = sink_mode out w2.

(** [runs out open m1 m2 Q]: started in two worlds whose sinks stand
    alike (and are open, when [open] is set), [m1] and [m2] return the
    same result [r], touch nothing but the sink behind [out], to which
    both append the same bytes [bs], and leave the same ghost records
    [g]; and [Q r bs g] holds. *)
Definition runs {A} (out : Writer) (open : bool) (m1 m2 : IO A)
  (Q : A -> list byte -> list Ghost -> Prop) : Prop :=
forall w1 w2, agree out w1 w2 ->
  (open = true -> sink_mode out w1 = Open) ->
  exists r bs g,
    m1 w1 = (r, stepped out bs g w1) /\ m2 w2 = (r, stepped out bs g w2)
    /\ Q r bs g.

(** *** Well-formed archives and their re-encoding *)

Definition epoch : Tar.Time := Tar.time_Unix 0 0.

(** The data bytes an entry is expected to carry. *)
Definition data_size (h : Tar.Header) : Z :=
if Tar.isHeaderOnlyType (Tar.Typeflag h) then 0 else Tar.Size h.

(** Every entry can be written back: its header is encodable once the
    time is reset, its size is not negative, the input holds all
    the bytes it declares, and a type without data declares none. *)
Fixpoint clean (s : Tar.Stream) : Prop :=
match s with
| Tar.End _ => True
| Tar.Entry h body rest =>
    (exists blk, tar_header (Tar.set_ModTime epoch h) = inr blk)
    /\ 0 <= Tar.Size h <= len body
    /\ data_size h = Tar.Size h
    /\ clean rest
end.

(** The tar stream of the entries with their times reset: header
    block(s), data, padding to the block size. *)
Fixpoint reencode (s : Tar.Stream) : list byte :=
match s with
| Tar.End _ => []
| Tar.Entry h body rest =>
    match tar_header (Tar.set_ModTime epoch h) with
    | inr blk =>
        blk ++ firstn (Z.to_nat (Tar.Size h)) body
          ++ Tar.zeroBlock (Tar.blockPadding (Tar.Size h)) ++ reencode rest
    | inl _ => []
    end
end.

(** The error that ends a stream. *)
Fixpoint ending (s : Tar.Stream) : err :=
match s with
| Tar.End e => e
| Tar.Entry _ _ rest => ending rest
end.

(** The end-of-archive trailer: two zero blocks. *)
Definition trailer : list byte := Tar.zeroBlock 512 ++ Tar.zeroBlock 512.

(** In the order they happened, the records of the loop go in pairs: a
    header handed to the writer, then a copy of as many bytes as that
    header declares; a last header may stand alone. *)
Fixpoint paired (l : list Ghost) : Prop :=
match l with
| [] => True
| [GhWriteHeader _] => True
| GhWriteHeader h :: GhCopyN n _ :: rest => n = Tar.Size h /\ paired rest
| _ => False
end.

(** The files a trace records as created, newest first. *)
Fixpoint creates (tr : list Event) : list string :=
match tr with
| [] => []
| EvCreate p :: rest => p :: creates rest
| _ :: rest => creates rest
end.

(** Everything a writer can reach. *)
Definition sinks (w : World)
  : gmap string node * list byte * option nat * list byte :=
(fs w, out_buf w, out_room w, gz_plain w).

(** What is left for the caller to see once the gzip writer is gone. *)
Definition outputs (w : World)
  : gmap string node * list byte * option nat :=
(fs w, out_buf w, out_room w).

(** What lands in the output for a plain text: the text itself for tar,
    its compressed form for tgz. *)
Definition packed (format : string) (plain : list byte) : list byte :=
if String.eqb format "tgz" then gzip_encode plain else plain.

(** What a ghost record must say when the run returned [e]. *)
Definition ghost_ok (e : error) (g : Ghost) : Prop :=
match g with
| GhWriteHeader h => Tar.ModTime h = epoch
| GhCopyN n written =>
    0 <= written <= Z.max 0 n
    /\ (written < n -> e <> nil_error)
    /\ (e = nil_error -> 0 <= n -> written = n)
end.

(** How a sink stands after it took [bs]. *)
Definition mode_after (m : mode) (bs : list byte) : mode :=
match m with
| Bounded n => Bounded (n - List.length bs)
| _ => m
end.

(** Nothing pending: no sticky error, no data owed to the current entry. *)
Definition healthy (tw : TarWriter) : Prop :=
tw_err tw = nil_error /\ tw_nb tw <= 0.

(** The error a run over a well-formed archive ends with. *)
Definition final_err (cmd : Cmd) (s : Tar.Stream) : error :=
if decide (ending s = io_EOF) then wait_err cmd else Some (ending s).

Definition loop_post (out : Writer) (open : bool) (cmd : Cmd)
  (s : Tar.Stream) (tw : TarWriter)
  (r : error * TarWriter) (bs : list byte) (g : list Ghost) : Prop :=
tw_w r.2 = out
/\ Forall (ghost_ok r.1) g
/\ paired (rev g)
/\ (r.1 = nil_error -> healthy tw -> healthy r.2)
/\ (open = true -> clean s -> healthy tw ->
    healthy r.2
    /\ bs ++ Tar.zeroBlock (tw_pad r.2)
       = Tar.zeroBlock (tw_pad tw) ++ reencode s
    /\ r.1 = final_err cmd s).

(** The part of [sendDownstream] that runs once the process is started:
    the loop, then the deferred [tarOut.Close()]. *)
Definition archive_body (cmd : Cmd) (s : Tar.Stream) (out : Writer)
  : IO error :=
sendDownstream_loop cmd s (tar_NewWriter out)
  ≫= (fun '(e, tarOut) => tw_Close tarOut ;; ret e).

Definition body_post (out : Writer) (open : bool) (cmd : Cmd)
  (s : Tar.Stream) (e : error) (bs : list byte) (g : list Ghost) : Prop :=
Forall (ghost_ok e) g
/\ paired (rev g)
/\ (open = true -> e = nil_error -> exists front, bs = front ++ trailer)
/\ (open = true -> clean s ->
    bs = reencode s ++ trailer /\ e = final_err cmd s).

(** *** Subprocesses and their log lines *)

(** From [w] to [w'] the subprocesses [new] ran, oldest first, and each
    one was logged by [makeCommand] as it was launched. *)
Definition ran (new : list (list string)) (w w' : World) : Prop :=
execs (trace w') = rev new ++ execs (trace w)
/\ log_lines w' = log_lines w ++ map log_line new.

(** The commands that reach the network: the git verb, which follows
    [git --git-dir gd], is [fetch]. *)
Definition is_fetch (argv : list string) : bool :=
match argv with
| _ :: _ :: _ :: verb :: _ => String.eqb verb "fetch"
| _ => false
end.

End Vocabulary.

(** ** A test double for the platform

    A delegate tool small enough to run inside the proof assistant: one
    upstream branch tip, a mirror that holds a set of commits, and an
    archive of one file per commit stamped with the tool's clock. The
    tar format is three bytes per entry (a marker, the time stamp, one
    data byte) and the compressor only adds a two-byte magic number. *)

Module Toy.

Record repo := mkRepo {
  tip : option string;      (* upstream tip of the branch, if reachable *)
  have : list string;       (* commits in the local mirror *)
  clock : Z                 (* the tool's wall clock *)
}.

Definition ok (out : list byte) : ProcResult := mkProc None out None.
Definition failed (code : Z) : ProcResult :=
  mkProc None [] (Some (exec_ExitError code)).

Definition byte_of (z : Z) : byte := SHA256.byte_of_Z z.

(** The treeish [commit ++ ":"] of a commit the mirror holds. *)
Definition known (r : repo) (treeish : string) : bool :=
  existsb (fun c => String.eqb treeish (c ++ ":")) (have r).

Definition run (args : list string) (r : repo) : ProcResult * repo :=
  match args with
  | [_git; _flag; _gd; "init"; _bare]%string => (ok [], r)
  | [_git; _flag; _gd; "fetch"; _repo; _refspec]%string =>
      match tip r with
      | Some c => (ok [], mkRepo (tip r) (c :: have r) (clock r + 1))
      | None => (failed 128, mkRepo (tip r) (have r) (clock r + 1))
      end
  | [_git; _flag; _gd; "rev-parse"; _branch]%string =>
      match tip r with
      | Some c =>
          if existsb (String.eqb c) (have r)
          then (ok (list_byte_of_string (c ++ String "010" "")), r)
          else (failed 128, r)
      | None => (failed 128, r)
      end
  | [_git; _flag; _gd; "archive"; _f; _tar; treeish]%string =>
      if known r treeish
      then (ok [x01; byte_of (clock r); x2a],
            mkRepo (tip r) (have r) (clock r + 1))
      else (failed 128, mkRepo (tip r) (have r) (clock r + 1))
  | _ => (mkProc (Some exec_ErrNotFound) [] None, r)
  end.

Definition header (stamp : byte) : Tar.Header :=
  Tar.mkHeader "0" "file" "" 1 420 0 0 "root" "root"
    (Tar.time_Unix (SHA256.Z_of_byte stamp) 0)
    (Tar.time_Unix 0 0) (Tar.time_Unix 0 0).

Fixpoint decode (b : list byte) : Tar.Stream :=
  match b with
  | [] => Tar.End io_EOF
  | x01 :: stamp :: d :: rest => Tar.Entry (header stamp) [d] (decode rest)
  | x01 :: stamp :: [] =>
      Tar.Entry (header stamp) [] (Tar.End io_ErrUnexpectedEOF)
  | _ => Tar.End tar_ErrHeader
  end.

Definition encode (h : Tar.Header) : err + list byte :=
  if Tar.Size h <? 0 then inl tar_ErrHeader
  else inr [x01; byte_of (Tar.unix_sec (Tar.ModTime h))].

#[global] Instance platform : Platform := {|
  Repo := repo;
  exec := run;
  tar_decode := decode;
  tar_header := encode;
  gzip_encode := fun plain => x1f :: x8b :: plain
|}.

(** A world with an empty file tree and empty streams. *)
Definition world (r : repo) : World :=
  mkWorld ∅ ∅ r [] [] None [] [] [] [].


(** A machine on which no subprocess can be started: the delegate tool
    is not installed. *)
Definition no_git : Platform := {|
  Repo := unit;
  exec := fun _ r => (mkProc (Some exec_ErrNotFound) [] None, r);
  tar_decode := decode;
  tar_header := encode;
  gzip_encode := fun plain => x1f :: x8b :: plain
|}.

Definition bare : @World no_git :=
  @mkWorld no_git ∅ ∅ tt [] [] None [] [] [] [].

End Toy.

(** * Properties *)

(** ** The cache key *)

Lemma hexdigit_is_lower_hex (b : byte) :
  Hex.is_lower_hex (Hex.hexdigit (N.shiftr (Byte.to_N b) 4)) = true
  /\ Hex.is_lower_hex (Hex.hexdigit (N.land (Byte.to_N b) 15)) = true.
Proof. destruct b; split; vm_compute; reflexivity. Qed.

Lemma EncodeToString_length (src : list byte) :
  String.length (Hex.EncodeToString src) = (2 * List.length src)%nat.
Proof.
  induction src as [|b rest IH]; [reflexivity|].
  cbn [Hex.EncodeToString String.length List.length]. rewrite IH. lia.
Qed.

Lemma EncodeToString_lower_hex (src : list byte) :
  Forall (fun c => Hex.is_lower_hex c = true)
    (list_ascii_of_string (Hex.EncodeToString src)).
Proof.
  induction src as [|b rest IH]; [constructor|].
  cbn [Hex.EncodeToString list_ascii_of_string].
  destruct (hexdigit_is_lower_hex b) as [Hhi Hlo].
  repeat constructor; assumption.
Qed.

Lemma Sum256_length (data : list byte) :
  List.length (SHA256.Sum256 data) = 32%nat.
Proof.
  unfold SHA256.Sum256.
  set (d := SHA256.block _ _ _). clearbody d.
  rewrite length_map. reflexivity.
Qed.

Lemma lower_hex_not_slash (c : ascii) :
  Hex.is_lower_hex c = true -> c <> "/"%char.
Proof. intros H ->. vm_compute in H. discriminate. Qed.


(** ** Running the monad *)

Ltac io_unfold :=
  unfold mbind, mret, io_bind, io_ret, bind, ret, modify, gets, defer in *.

Section Proofs.

Context `{P : Platform}.

Lemma valid_inv repo branch format :
  valid repo branch format = true ->
  repo <> ""%string /\ branch <> ""%string
  /\ (format = "tar"%string \/ format = "tgz"%string).
Proof.
  unfold valid. rewrite !andb_true_iff, orb_true_iff, !negb_true_iff.
  rewrite !String.eqb_neq, !String.eqb_eq. tauto.
Qed.

(** With valid fields [preflightAndInit] is its second half, lines
    124-143, in which neither branch nor format occurs. *)
Lemma preflight_valid repo branch format cacheDir :
  valid repo branch format = true ->
  preflightAndInit repo branch format cacheDir
  = (let gd := Path.Join [cacheDir; cacheKey repo] in
     e ← os_Stat gd;
     match e with
     | Some e' =>
         if os_IsNotExist e' then
           e ← os_MkdirAll gd 493;
           match e with
           | Some _ => mret (""%string, e)
           | None =>
               c ← makeCommand "git" ["--git-dir"; gd; "init"; "--bare"]%string;
               e ← Cmd_Run c;
               match e with
               | Some _ => mret (""%string, e)
               | None => mret (gd, nil_error)
               end
           end
         else mret (""%string, e)
     | None => mret (gd, nil_error)
     end).
Proof.
  intros Hv. apply valid_inv in Hv as (Hr & Hb & Hf).
  unfold preflightAndInit.
  destruct repo; [congruence|]. destruct branch; [congruence|].
  destruct Hf as [-> | ->]; reflexivity.
Qed.

(** C3. Validation comes before every effect: with an empty repo, an
    empty branch, or a format other than tar and tgz, [FetchLatest]
    returns a validation error and leaves the whole world as it was: no
    stat, no directory, no subprocess, no file, nothing logged, nothing
    written to any stream. *)
Theorem validation_precedes_effects
    repo branch commit tree format cacheDir outputDir out (w : World) :
  repo = ""%string \/ branch = ""%string
    \/ (format <> "tar"%string /\ format <> "tgz"%string) ->
  exists msg,
    FetchLatest repo branch commit tree format cacheDir outputDir out w
    = (Some (errors_New msg), w).
Proof.
  intros H. unfold FetchLatest, preflightAndInit.
  destruct repo as [|r0 repo]; [eexists; reflexivity|].
  destruct branch as [|b0 branch]; [eexists; reflexivity|].
  destruct H as [H | [H | [Htar Htgz]]]; try discriminate.
  destruct format as [|f0 format]; [eexists; reflexivity|].
  apply String.eqb_neq in Htar, Htgz.
  cbn [String.length Nat.eqb]. rewrite Htar, Htgz.
  eexists; reflexivity.
Qed.

(** ** Sinks only grow *)

Lemma stepped_nil out (w : World) : stepped out [] [] w = w.
Proof.
unfold stepped, absorb, with_ghost, with_out, with_fs, with_gz.
destruct w as [f ff r so ob orm gz lg tr gh].
destruct out as [|p|u]; cbn.
- rewrite app_nil_r. destruct orm as [n|]; [rewrite Nat.sub_0_r|]; reflexivity.
- destruct (f !! p) as [[|d]|] eqn:E; cbn; try reflexivity.
  rewrite app_nil_r, insert_id by exact E. reflexivity.
- rewrite app_nil_r. reflexivity.
Qed.

Lemma stepped_stepped out b1 g1 b2 g2 (w : World) :
  stepped out b2 g2 (stepped out b1 g1 w)
  = stepped out (b1 ++ b2) (g2 ++ g1) w.
Proof.
unfold stepped, absorb, with_ghost, with_out, with_fs, with_gz.
destruct w as [f ff r so ob orm gz lg tr gh].
destruct out as [|p|u]; cbn.
- rewrite <- !app_assoc. destruct orm as [n|]; cbn; [|reflexivity].
  rewrite length_app, Nat.sub_add_distr. reflexivity.
- destruct (f !! p) as [[|d]|] eqn:E; cbn; rewrite ?E; cbn;
    rewrite <- ?app_assoc; try reflexivity.
  rewrite lookup_insert_eq. cbn. rewrite insert_insert_eq, <- !app_assoc.
  reflexivity.
- rewrite <- !app_assoc. reflexivity.
Qed.

Lemma absorb_nil out g (w : World) :
  with_ghost g (absorb out [] w) = with_ghost g w.
Proof.
unfold absorb, with_ghost, with_out, with_fs, with_gz.
destruct w as [f ff r so ob orm gz lg tr gh].
destruct out as [|p|u]; cbn.
- rewrite app_nil_r. destruct orm as [n|]; [rewrite Nat.sub_0_r|]; reflexivity.
- destruct (f !! p) as [[|d]|] eqn:E; cbn; try reflexivity.
  rewrite app_nil_r, insert_id by exact E. reflexivity.
- rewrite app_nil_r. reflexivity.
Qed.

Lemma ghost_absorb out bs (w : World) : ghost (absorb out bs w) = ghost w.
Proof.
unfold absorb. destruct out as [|p|u]; cbn; try reflexivity.
destruct (fs w !! p) as [[|d]|]; reflexivity.
Qed.

Lemma stepped_no_ghost out bs (w : World) :
  stepped out bs [] w = absorb out bs w.
Proof.
unfold stepped. cbn. rewrite <- (ghost_absorb out bs w).
destruct (absorb out bs w); reflexivity.
Qed.

Lemma note_stepped out gh (w : World) : note gh w = stepped out [] [gh] w.
Proof. unfold note, stepped. rewrite absorb_nil. reflexivity. Qed.

Lemma sink_mode_stepped out bs g (w : World) :
  sink_mode out (stepped out bs g w) = mode_after (sink_mode out w) bs.
Proof.
unfold stepped, absorb, sink_mode, with_ghost, with_out, with_fs, with_gz.
destruct out as [|p|u]; cbn.
- destruct (out_room w); reflexivity.
- destruct (fs w !! p) as [[|d]|] eqn:E; cbn; rewrite ?E; try reflexivity.
  rewrite lookup_insert_eq. reflexivity.
- reflexivity.
Qed.

Lemma agree_stepped out bs g (w1 w2 : World) :
  agree out w1 w2 -> agree out (stepped out bs g w1) (stepped out bs g w2).
Proof. unfold agree. rewrite !sink_mode_stepped. congruence. Qed.

Lemma open_stepped out bs g (w : World) :
  sink_mode out w = Open -> sink_mode out (stepped out bs g w) = Open.
Proof. rewrite sink_mode_stepped. intros ->. reflexivity. Qed.

(** ** Rules of the judgement *)

Lemma runs_ret {A} out open (a : A) (Q : A -> list byte -> list Ghost -> Prop) :
  Q a [] [] -> runs out open (ret a) (ret a) Q.
Proof.
intros HQ w1 w2 _ _. exists a, [], []. rewrite !stepped_nil. auto.
Qed.

Lemma runs_bind {A B} out open (m1 m2 : IO A) (k1 k2 : A -> IO B) Q1
    (Q : B -> list byte -> list Ghost -> Prop) :
  runs out open m1 m2 Q1 ->
  (forall r b1 g1, Q1 r b1 g1 ->
     runs out open (k1 r) (k2 r) (fun r2 b2 g2 => Q r2 (b1 ++ b2) (g2 ++ g1))) ->
  runs out open (m1 ≫= k1) (m2 ≫= k2) Q.
Proof.
intros Hm Hk w1 w2 Hag Hop.
destruct (Hm w1 w2 Hag Hop) as (r & b1 & g1 & E1 & E2 & HQ1).
destruct (Hk r b1 g1 HQ1 (stepped out b1 g1 w1) (stepped out b1 g1 w2))
  as (r2 & b2 & g2 & F1 & F2 & HQ).
- apply agree_stepped, Hag.
- intros Ho. apply open_stepped, Hop, Ho.
- exists r2, (b1 ++ b2), (g2 ++ g1).
  unfold mbind, io_bind, bind. rewrite E1, E2, F1, F2, !stepped_stepped. auto.
Qed.

Lemma runs_conseq {A} out open (m1 m2 : IO A)
    (Q Q' : A -> list byte -> list Ghost -> Prop) :
  runs out open m1 m2 Q -> (forall r b g, Q r b g -> Q' r b g) ->
  runs out open m1 m2 Q'.
Proof.
intros Hm HQ w1 w2 Hag Hop.
destruct (Hm w1 w2 Hag Hop) as (r & b & g & E1 & E2 & H).
exists r, b, g. auto.
Qed.

Lemma runs_note {A} out open (gh : Ghost) (k1 k2 : IO A)
    (Q : A -> list byte -> list Ghost -> Prop) :
  runs out open k1 k2 (fun r b g => Q r b (g ++ [gh])) ->
  runs out open (modify (note gh) ;; k1) (modify (note gh) ;; k2) Q.
Proof.
intros Hk w1 w2 Hag Hop.
pose proof (note_stepped out gh) as Hn.
destruct (Hk (note gh w1) (note gh w2)) as (r & b & g & E1 & E2 & H).
- unfold agree. rewrite !Hn. apply agree_stepped, Hag.
- intros Ho. rewrite Hn. apply open_stepped, Hop, Ho.
- exists r, b, (g ++ [gh]).
  unfold mbind, io_bind, bind, modify. rewrite E1, E2, !Hn, !stepped_stepped.
  auto.
Qed.

(** One [Write] is decided by how the sink stands. *)
Lemma Write_spec out b (w : World) :
  Write out b w
  = ((len (accepted (sink_mode out w) b), refusal (sink_mode out w) b),
     absorb out (accepted (sink_mode out w) b) w).
Proof.
unfold Write, sink_mode, absorb. io_unfold.
destruct out as [|p|u]; cbn.
- destruct (out_room w); reflexivity.
- destruct (fs w !! p) as [[|d]|]; reflexivity.
- reflexivity.
Qed.

Lemma runs_Write out open b :
  runs out open (Write out b) (Write out b)
    (fun r bs g =>
       g = [] /\ r.1 = len bs /\ (exists tl, b = bs ++ tl)
       /\ (r.2 = nil_error -> bs = b)
       /\ (r.2 <> nil_error -> 0 < len b -> len bs < len b)
       /\ (open = true -> r.2 = nil_error)).
Proof.
intros w1 w2 Hag Hop. unfold agree in Hag.
exists (len (accepted (sink_mode out w1) b), refusal (sink_mode out w1) b),
  (accepted (sink_mode out w1) b), [].
rewrite !Write_spec, <- Hag.
rewrite !stepped_no_ghost. repeat split; cbn.
- destruct (sink_mode out w1) as [|n|]; cbn.
  + exists b; reflexivity.
  + exists (skipn n b). symmetry. apply firstn_skipn.
  + exists []. rewrite app_nil_r. reflexivity.
- destruct (sink_mode out w1) as [|n|]; cbn; try discriminate; [|reflexivity].
  destruct (Nat.leb_spec (List.length b) n); [|discriminate].
  intros _. apply firstn_all2. assumption.
- unfold len. destruct (sink_mode out w1) as [|n|]; cbn; try congruence.
  + intros _ Hb. exact Hb.
  + destruct (Nat.leb_spec (List.length b) n); [congruence|].
    intros _ _. rewrite length_firstn. lia.
- intros Ho. rewrite (Hop Ho). reflexivity.
Qed.

(** ** The tar writer *)

Ltac use_hyps :=
  repeat match goal with
  | H : ?A -> _, H' : ?A |- _ => specialize (H H')
  | H : ?x = ?x -> _ |- _ => specialize (H eq_refl)
  | H : Some _ = None -> _ |- _ => clear H
  | H : _ /\ _ |- _ => destruct H
  | H : exists _, _ |- _ => destruct H
  end.

Ltac break :=
  repeat match goal with
  | H : _ /\ _ |- _ => destruct H
  | H : exists _, _ |- _ => destruct H
  end.

Ltac fin :=
  unfold healthy in *; cbn in *; rewrite ?app_nil_r in *; repeat split; intros; use_hyps; subst;
  cbn in *; rewrite ?app_nil_r in *;
  eauto; try discriminate; try congruence; try lia.

Lemma runs_tw_Flush out open tw :
  tw_w tw = out ->
  runs out open (tw_Flush tw) (tw_Flush tw)
    (fun r bs g =>
       g = [] /\ tw_w r.2 = out
       /\ (r.1 = nil_error ->
           healthy tw /\ bs = Tar.zeroBlock (tw_pad tw)
           /\ r.2 = mkTW out (tw_nb tw) 0 None)
       /\ (open = true -> healthy tw -> r.1 = nil_error)).
Proof.
intros <-. unfold tw_Flush, healthy.
destruct (tw_err tw) as [e|] eqn:Ee.
{ apply runs_ret. cbn. repeat split; try discriminate. intros _ [? _]. discriminate. }
destruct (Z.ltb_spec 0 (tw_nb tw)) as [Hnb|Hnb].
{ apply runs_ret. cbn. repeat split; try discriminate. intros _ [_ ?]. lia. }
eapply runs_bind; [apply runs_Write|].
intros [n e] b1 g1 (-> & _ & _ & Hall & _ & Hopen). cbn in *.
destruct e as [e|]; apply runs_ret; cbn; rewrite ?app_nil_r.
- repeat split; try discriminate. intros Ho _. specialize (Hopen Ho). discriminate.
- repeat split; auto.
Qed.

Lemma runs_tw_WriteHeader out open tw hdr :
  tw_w tw = out ->
  runs out open (tw_WriteHeader tw hdr) (tw_WriteHeader tw hdr)
    (fun r bs g =>
       g = [GhWriteHeader hdr] /\ tw_w r.2 = out
       /\ (r.1 = nil_error ->
           healthy tw
           /\ exists blk, tar_header hdr = inr blk
              /\ bs = Tar.zeroBlock (tw_pad tw) ++ blk
              /\ r.2 = mkTW out (data_size hdr)
                         (Tar.blockPadding (data_size hdr)) None)
       /\ (open = true -> healthy tw ->
           (exists blk, tar_header hdr = inr blk) -> r.1 = nil_error)).
Proof.
intros Hout. unfold tw_WriteHeader. apply runs_note.
eapply runs_bind; [apply runs_tw_Flush, Hout|].
intros [e tw1] b1 g1 (-> & Hw1 & Hok & Hopen). cbn in *.
destruct e as [e|]; [apply runs_ret; fin|].
destruct (Hok eq_refl) as (Hh & -> & ->). cbn.
destruct (tar_header hdr) as [e|blk] eqn:Eh; [apply runs_ret; fin|].
eapply runs_bind; [apply runs_Write|].
intros [n e] b2 g2 (-> & _ & _ & Hall & _ & Hopen2). cbn in *.
destruct e as [e|]; apply runs_ret; [fin|].
rewrite (Hall eq_refl). fin.
Qed.

Lemma runs_tw_Write out open tw b :
  tw_w tw = out ->
  runs out open (tw_Write tw b) (tw_Write tw b)
    (fun r bs g =>
       g = [] /\ tw_w r.2 = out /\ r.1.1 = len bs /\ len bs <= len b
       /\ (r.1.2 = nil_error ->
           bs = b /\ tw_err tw = nil_error /\ len b <= tw_nb tw
           /\ r.2 = mkTW out (tw_nb tw - len b) (tw_pad tw) None)
       /\ (r.1.2 <> nil_error -> 0 < len b -> len bs < len b)
       /\ (open = true -> tw_err tw = nil_error -> len b <= tw_nb tw ->
           r.1.2 = nil_error)).
Proof.
intros <-. unfold tw_Write.
destruct (tw_err tw) as [e|] eqn:Ee.
{ apply runs_ret. unfold len. fin. }
set (b' := if tw_nb tw <? len b then firstn (Z.to_nat (tw_nb tw)) b else b).
assert (Hb' : len b' <= len b
              /\ ((tw_nb tw <? len b) = true -> 0 < len b -> len b' < len b)
              /\ ((tw_nb tw <? len b) = false -> b' = b)).
{ unfold b'. destruct (tw_nb tw <? len b) eqn:E;
    [apply Z.ltb_lt in E | apply Z.ltb_ge in E];
    unfold len in *; rewrite ?length_firstn; repeat split; intros; auto;
    try discriminate; lia. }
destruct Hb' as (Hle & Hlt & Heq). clearbody b'.
eapply (runs_bind _ _ _ _ _ _
  (fun r bs g => g = [] /\ r.1 = len bs /\ len bs <= len b'
     /\ (r.2 = nil_error -> bs = b')
     /\ (r.2 <> nil_error -> 0 < len b' -> len bs < len b')
     /\ (open = true -> r.2 = nil_error))).
{ destruct (0 <? len b') eqn:Epos.
  - eapply runs_conseq; [apply runs_Write|].
    intros r bs g (-> & Hn & [tl Htl] & Hall & Hshort & Hop). cbn.
    repeat split; auto. rewrite Htl. unfold len. rewrite length_app. lia.
  - apply runs_ret. apply Z.ltb_ge in Epos. unfold len in *; cbn.
    repeat split; auto; try lia.
    intros _. destruct b'; [reflexivity|cbn in Epos; lia]. }
intros [n e] b1 g1 (-> & Hn & Hlen & Hall & Hshort & Hopen). cbn in *.
destruct e as [e|].
{ apply runs_ret. cbn. rewrite app_nil_r.
  assert (He : Some e <> nil_error) by discriminate.
  repeat split; auto; try discriminate; try lia.
  - intros _ Hpos. destruct (Z.ltb_spec (tw_nb tw) (len b)) as [H|H].
    + specialize (Hlt eq_refl Hpos). lia.
    + rewrite (Heq eq_refl) in *. apply Hshort; [discriminate|lia]. }
specialize (Hall eq_refl). subst b1.
destruct (Z.ltb_spec (tw_nb tw) (len b)) as [H|H]; apply runs_ret; cbn;
  rewrite app_nil_r.
- repeat split; auto; try discriminate; try lia.
- rewrite (Heq eq_refl) in *. subst n.
  repeat split; auto; try lia; try congruence.
Qed.

Lemma runs_tw_Close out open tw :
  tw_w tw = out ->
  runs out open (tw_Close tw) (tw_Close tw)
    (fun r bs g =>
       g = []
       /\ (open = true -> healthy tw ->
           r = nil_error /\ bs = Tar.zeroBlock (tw_pad tw) ++ trailer)).
Proof.
intros Hout. unfold tw_Close.
destruct (tw_err tw) as [e|] eqn:Ee; [apply runs_ret; fin|].
eapply runs_bind; [apply runs_tw_Flush, Hout|].
intros [e tw1] b1 g1 (-> & Hw1 & Hok & Hopen). cbn in *.
destruct e as [e|]; [apply runs_ret; fin|].
destruct (Hok eq_refl) as (Hh & -> & ->). cbn.
eapply runs_bind; [apply runs_Write|].
intros [n e] b2 g2 (-> & _ & _ & Hall & _ & Hopen2). cbn in *.
destruct e as [e|]; [apply runs_ret; fin|].
rewrite (Hall eq_refl).
eapply runs_bind; [apply runs_Write|].
intros [n3 e3] b3 g3 (-> & _ & _ & Hall3 & _ & Hopen3). cbn in *.
apply runs_ret. split; auto. intros Ho _. specialize (Hopen3 Ho). subst e3.
rewrite (Hall3 eq_refl), app_nil_r. unfold trailer. rewrite <- ?app_assoc. auto.
Qed.

(** ** Copying an entry *)

Lemma len_firstn (k : Z) (b : list byte) :
  len (firstn (Z.to_nat k) b) = Z.max 0 (Z.min k (len b)).
Proof. unfold len. rewrite length_firstn. lia. Qed.

Lemma len_nonneg (b : list byte) : 0 <= len b.
Proof. unfold len. lia. Qed.

Lemma runs_io_Copy_limited out open dst body nb n :
  tw_w dst = out ->
  runs out open (io_Copy_limited dst body nb n) (io_Copy_limited dst body nb n)
    (fun r bs g =>
       g = [] /\ tw_w r.2 = out /\ r.1.1 = len bs
       /\ 0 <= r.1.1 <= Z.max 0 n
       /\ (r.1.2 <> nil_error -> r.1.1 < n)
       /\ (r.1.2 = nil_error ->
           bs = firstn (Z.to_nat r.1.1) body
           /\ tw_err r.2 = tw_err dst /\ tw_nb r.2 = tw_nb dst - r.1.1
           /\ tw_pad r.2 = tw_pad dst)
       /\ (open = true -> tw_err dst = nil_error -> 0 <= n -> n <= nb ->
           n <= len body -> n <= tw_nb dst ->
           r.1.2 = nil_error /\ r.1.1 = n)).
Proof.
intros Hout. unfold io_Copy_limited.
set (avail := Z.min nb (len body)).
set (k := Z.min n avail).
set (data := firstn (Z.to_nat k) body).
assert (Hd : len data = Z.max 0 k).
{ unfold data. rewrite len_firstn. unfold k, avail. pose proof (len_nonneg body). lia. }
assert (Hdd : firstn (Z.to_nat (len data)) body = data).
{ unfold data at 2. f_equal. rewrite Hd. lia. }
pose proof (len_nonneg body) as Hbody.
eapply (runs_bind _ _ _ _ _ _
  (fun r bs g => g = [] /\ tw_w r.2 = out /\ r.1.1 = len bs /\ len bs <= len data
     /\ (r.1.2 = nil_error ->
         bs = data /\ tw_err r.2 = tw_err dst
         /\ tw_nb r.2 = tw_nb dst - len data /\ tw_pad r.2 = tw_pad dst)
     /\ (r.1.2 <> nil_error -> len bs < len data)
     /\ (open = true -> tw_err dst = nil_error -> len data <= tw_nb dst ->
         r.1.2 = nil_error))).
{ destruct (0 <? len data) eqn:Epos.
  - apply Z.ltb_lt in Epos.
    eapply runs_conseq; [apply runs_tw_Write, Hout|].
    intros [[nw e] d'] bs g (-> & Hw & Hn & Hle & Hok & Hshort & Hop). cbn in *.
    repeat split; auto;
      try (intros He; destruct (Hok He) as (-> & Ht & Hl & ->); cbn; congruence);
      try (destruct (Hok ltac:(assumption)) as (-> & Ht & Hl & ->); cbn;
           congruence).
  - apply Z.ltb_ge in Epos. apply runs_ret. cbn.
    assert (data = []) as Hnil.
    { destruct data; [reflexivity|]. unfold len in Epos. cbn in Epos. lia. }
    rewrite Hnil in *. unfold len in *. cbn in *.
    repeat split; auto; try lia; try congruence. }
intros [[nw e] d'] b1 g1 (-> & Hw & Hn & Hle & Hok & Hshort & Hop). cbn in *.
pose proof (len_nonneg b1) as Hb1.
destruct e as [e|].
{ apply runs_ret. cbn. rewrite app_nil_r.
  assert (Hlt : len b1 < len data) by (apply Hshort; discriminate).
  repeat split; intros; auto; try discriminate; try lia;
    exfalso; assert (Some e = nil_error)
      by (apply Hop; auto; rewrite Hd; unfold k, avail; lia);
    discriminate. }
destruct (Hok eq_refl) as (-> & He & Hnb & Hpad).
subst nw. rewrite Z.eqb_refl. cbn.
destruct (Z.leb_spec n avail) as [Hna|Hna]; cbn.
{ case_decide; [|congruence].
  apply runs_ret. cbn. rewrite app_nil_r, Hdd. unfold k in *.
  repeat split; intros; auto; try lia; try congruence. }
destruct (Z.ltb_spec avail nb) as [Han|Han]; cbn.
- case_decide; [discriminate|].
  apply runs_ret. cbn. rewrite app_nil_r. unfold k, avail in *.
  repeat split; intros; auto; try discriminate; try lia.
- case_decide; [|congruence].
  apply runs_ret. cbn. rewrite app_nil_r, Hdd. unfold k, avail in *.
  repeat split; intros; auto; try lia; try congruence.
Qed.

Lemma runs_io_CopyN out open dst body nb n :
  tw_w dst = out ->
  runs out open (io_CopyN dst body nb n) (io_CopyN dst body nb n)
    (fun r bs g =>
       tw_w r.2 = out
       /\ exists nw,
           g = [GhCopyN n nw] /\ nw = len bs /\ 0 <= nw <= Z.max 0 n
           /\ (nw < n -> r.1.2 <> nil_error)
           /\ (r.1.2 = nil_error ->
               (r.1.1 = n /\ nw = n \/ n < 0 /\ r.1.1 <> n)
               /\ bs = firstn (Z.to_nat nw) body
               /\ tw_err r.2 = tw_err dst /\ tw_nb r.2 = tw_nb dst - nw
               /\ tw_pad r.2 = tw_pad dst)
           /\ (open = true -> tw_err dst = nil_error -> 0 <= n -> n <= nb ->
               n <= len body -> n <= tw_nb dst -> r.1.2 = nil_error)).
Proof.
intros Hout. unfold io_CopyN.
eapply runs_bind; [apply runs_io_Copy_limited, Hout|].
intros [[nw e] d'] b1 g1 (-> & Hw & Hn & Hrange & Herr & Hok & Hop). cbn in *.
apply runs_note.
destruct (Z.eqb_spec nw n) as [Heq|Hne].
{ apply runs_ret. cbn. rewrite app_nil_r. split; [exact Hw|].
  exists nw. assert (e = nil_error) as ->.
  { destruct e; [|reflexivity]. exfalso. assert (nw < n); [|lia].
    apply Herr. discriminate. }
  destruct (Hok eq_refl) as (? & ? & ? & ?).
  repeat split; auto; try lia. }
destruct (Z.ltb_spec nw n) as [Hlt|Hge]; cbn.
- destruct e as [e|]; cbn; apply runs_ret; cbn; rewrite app_nil_r;
    (split; [exact Hw|]); exists nw;
    repeat split; auto; try discriminate; try lia;
    intros Ho ? ? ? ? ?; destruct (Hop Ho) as [? ?]; auto; lia.
- apply runs_ret. cbn. rewrite app_nil_r. split; [exact Hw|]. exists nw.
  repeat split; intros; auto; try lia; try (apply Hok; assumption).
Qed.

(** ** The archive loop *)

Lemma Cmd_Wait_eq (c : Cmd) : Cmd_Wait c = ret (wait_err c).
Proof. unfold Cmd_Wait, wait_err. destruct (result c); reflexivity. Qed.

Lemma data_size_set_ModTime t h :
  data_size (Tar.set_ModTime t h) = data_size h.
Proof. reflexivity. Qed.

Lemma retime_Entry_inv t h body rest s2 :
  Tar.retime t (Tar.Entry h body rest) = Tar.retime t s2 ->
  exists h2 rest2,
    s2 = Tar.Entry h2 body rest2
    /\ Tar.set_ModTime t h = Tar.set_ModTime t h2
    /\ Tar.retime t rest = Tar.retime t rest2.
Proof.
destruct s2 as [|h2 body2 rest2]; cbn [Tar.retime]; intros H; [discriminate|].
exists h2, rest2. repeat split; congruence.
Qed.

Lemma runs_loop out open cmd1 cmd2 s1 :
  wait_err cmd1 = wait_err cmd2 ->
  forall s2 tw,
  tw_w tw = out ->
  Tar.retime epoch s1 = Tar.retime epoch s2 ->
  runs out open (sendDownstream_loop cmd1 s1 tw)
    (sendDownstream_loop cmd2 s2 tw) (loop_post out open cmd1 s1 tw).
Proof.
intros Hwait. induction s1 as [e|h body rest IH]; intros s2 tw Hout Hre.
- destruct s2 as [e2|]; [|discriminate]. cbn in Hre. injection Hre as <-.
  cbn [sendDownstream_loop]. rewrite !Cmd_Wait_eq, <- Hwait.
  unfold loop_post, final_err. cbn [ending].
  destruct (decide (e = io_EOF)) as [->|Hne].
  + eapply runs_bind; [apply (runs_ret _ _ _ (fun r b g => r = wait_err cmd1 /\ b = [] /\ g = [])); auto|].
    intros r b1 g1 (-> & -> & ->). apply runs_ret. cbn.
    repeat split; intros; rewrite ?app_nil_r; auto; unfold healthy in *;
      try tauto.
  + apply runs_ret. cbn.
    repeat split; intros; rewrite ?app_nil_r; auto; unfold healthy in *;
      try tauto.
- apply retime_Entry_inv in Hre as (h2 & rest2 & -> & Hh & Hrest).
  cbn [sendDownstream_loop]. change (Tar.time_Unix 0 0) with epoch.
  rewrite <- Hh.
  change (if Tar.isHeaderOnlyType (Tar.Typeflag (Tar.set_ModTime epoch h))
          then 0 else Tar.Size (Tar.set_ModTime epoch h))
    with (data_size h).
  change (Tar.Size (Tar.set_ModTime epoch h)) with (Tar.Size h).
  eapply runs_bind; [apply runs_tw_WriteHeader, Hout|].
  intros [e tw1] b1 g1 (-> & Hw1 & Hok1 & Hop1). cbn in Hw1, Hok1, Hop1. cbn.
  destruct e as [e|].
  { apply runs_ret. unfold loop_post. cbn.
    repeat split; intros; auto; try discriminate;
      try (repeat constructor; fail);
      exfalso; assert (Some e = nil_error)
        by (cbn in *; apply Hop1; unfold healthy in *; eauto; tauto);
      discriminate. }
  destruct (Hok1 eq_refl) as (Hh0 & blk & Hblk & -> & ->). clear Hok1 Hop1.
  eapply runs_bind; [apply runs_io_CopyN; reflexivity|].
  intros [[written e] tw2] b2 g2 (Hw2 & nw & -> & Hnw & Hrange & Hshort & Hok2 & Hop2).
  cbn in Hw2, Hshort, Hok2, Hop2. cbn.
  change (data_size (Tar.set_ModTime epoch h)) with (data_size h) in *.
  assert (Hcopy : ghost_ok nil_error (GhCopyN (Tar.Size h) nw)
                  \/ e <> nil_error) by
    (destruct e; [right; discriminate|left; cbn;
       destruct (Hok2 eq_refl) as (Hc & _); lia]).
  destruct e as [e|].
  { apply runs_ret. unfold loop_post. cbn.
    repeat split; intros; auto; try discriminate; try lia;
      try (repeat constructor; cbn; auto; try lia; try discriminate; fail);
      exfalso; assert (Some e = nil_error)
        by (cbn in *; break; apply Hop2; unfold healthy in *; auto; lia);
      discriminate. }
  destruct (Hok2 eq_refl) as (Hcase & Hb2 & He2 & Hnb2 & Hpad2). cbn in He2, Hnb2, Hpad2.
  assert (Hh2 : healthy tw2).
  { split; [exact He2|]. rewrite Hnb2. unfold data_size in *.
    destruct (Tar.isHeaderOnlyType (Tar.Typeflag h)); lia. }
  destruct (Z.eqb_spec written (Tar.Size h)) as [Heq|Hneq]; cbn.
  + assert (nw = Tar.Size h) as Hnweq by lia.
    eapply runs_conseq; [apply (IH rest2 tw2 Hw2 Hrest)|].
    intros [e' tw'] b3 g3 (Hw3 & Hg3 & Hp3 & Hhl3 & Hop3). unfold loop_post.
    cbn in *.
    split; [exact Hw3|]. split.
    { rewrite !Forall_app. repeat split; auto; repeat constructor; cbn; auto; lia. }
    split.
    { rewrite !List.rev_app_distr. cbn. split; [reflexivity|exact Hp3]. }
    split; [intros He' _; apply Hhl3; auto|].
    intros Ho (Hblk' & Hsz & Hds & Hcl) Hhtw.
    destruct (Hop3 Ho Hcl Hh2) as (Hh' & Hbytes & Hfin).
    split; [exact Hh'|]. split; [|exact Hfin].
    rewrite Hblk, <- !app_assoc. do 2 f_equal. rewrite Hb2, Hnweq. f_equal.
    rewrite Hbytes, Hpad2, Hds. reflexivity.
  + apply runs_ret. unfold loop_post. cbn.
    repeat split; intros; auto; try lia;
      try (repeat constructor; cbn; auto; lia);
      try (destruct Hh2; assumption);
      exfalso; cbn in *; break; unfold healthy in *; lia.
Qed.

(** ** One archive attempt *)

Lemma sink_mode_launched out argv (w : World) :
  sink_mode out (launched argv w) = sink_mode out w.
Proof. destruct out; reflexivity. Qed.

Lemma content_launched out argv (w : World) :
  content out (launched argv w) = content out w.
Proof. destruct out; reflexivity. Qed.

Lemma content_stepped out bs g (w : World) :
  content out (stepped out bs g w)
  = if decide (sink_mode out w = Closed) then content out w
    else content out w ++ bs.
Proof.
unfold stepped, absorb, content, sink_mode.
destruct out as [|p|u]; cbn.
- destruct (out_room w); reflexivity.
- destruct (fs w !! p) as [[|d]|] eqn:E; cbn; rewrite ?E; try reflexivity.
  rewrite lookup_insert_eq. reflexivity.
- reflexivity.
Qed.

Lemma sendDownstream_unfold gd commit tree out (w : World) :
  let A := archive_argv gd commit tree in
  let r := outcome A w in
  sendDownstream gd commit tree out w
  = match start_err r with
    | Some e => (Some e, launched A w)
    | None =>
        archive_body (mkCmd A true (Some r)) (tar_decode (proc_stdout r)) out
          (launched A w)
    end.
Proof.
cbn zeta. unfold sendDownstream, makeCommand, Cmd_StdoutPipe, Cmd_Start,
  exec_Command, log_Println, archive_body, outcome, launched, archive_argv,
  Cmd_pipe.
io_unfold. cbn.
destruct (exec _ (repo_state w)) as [r st] eqn:E. cbn.
destruct (start_err r); reflexivity.
Qed.

Lemma runs_archive_body out open cmd1 cmd2 s1 s2 :
  wait_err cmd1 = wait_err cmd2 ->
  Tar.retime epoch s1 = Tar.retime epoch s2 ->
  runs out open (archive_body cmd1 s1 out) (archive_body cmd2 s2 out)
    (body_post out open cmd1 s1).
Proof.
intros Hwait Hre. unfold archive_body.
eapply runs_bind; [apply (runs_loop out open cmd1 cmd2 s1 Hwait s2); auto|].
intros [e tw] b1 g1 (Hw & Hg & Hp & Hhl & Hop). cbn in *.
assert (Hnew : healthy (tar_NewWriter out)) by (split; cbn; [reflexivity|lia]).
eapply runs_bind; [apply runs_tw_Close, Hw|].
intros e2 b2 g2 (-> & Hcl). cbn in *.
apply runs_ret. unfold body_post. rewrite !app_nil_r. cbn.
split; [exact Hg|]. split; [exact Hp|]. split.
- intros Ho ->. destruct (Hcl Ho (Hhl eq_refl Hnew)) as (_ & ->).
  exists (b1 ++ Tar.zeroBlock (tw_pad tw)). rewrite <- app_assoc. reflexivity.
- intros Ho Hclean. destruct (Hop Ho Hclean Hnew) as (Hh & Hbytes & Hfin).
  destruct (Hcl Ho Hh) as (_ & ->). split; [|exact Hfin].
  rewrite app_assoc, Hbytes. reflexivity.
Qed.

Lemma ghost_stepped out bs g (w : World) :
  ghost (stepped out bs g w) = g ++ ghost w.
Proof. reflexivity. Qed.

Lemma ghost_launched argv (w : World) : ghost (launched argv w) = ghost w.
Proof. reflexivity. Qed.

(** Two attempts whose subprocesses agree up to time stamps, on sinks
    that stand alike. *)
Lemma sendDownstream_sim gd commit tree out open (w1 w2 : World) :
  let A := archive_argv gd commit tree in
  start_err (outcome A w1) = start_err (outcome A w2) ->
  exit_err (outcome A w1) = exit_err (outcome A w2) ->
  Tar.retime epoch (tar_decode (proc_stdout (outcome A w1)))
    = Tar.retime epoch (tar_decode (proc_stdout (outcome A w2))) ->
  sink_mode out w1 = sink_mode out w2 ->
  (open = true -> sink_mode out w1 = Open) ->
  exists e bs g,
    sendDownstream gd commit tree out w1 = (e, stepped out bs g (launched A w1))
    /\ sendDownstream gd commit tree out w2
       = (e, stepped out bs g (launched A w2))
    /\ (start_err (outcome A w1) <> nil_error ->
        e = start_err (outcome A w1) /\ bs = [] /\ g = [])
    /\ (start_err (outcome A w1) = nil_error ->
        body_post out open (mkCmd A true (Some (outcome A w1)))
          (tar_decode (proc_stdout (outcome A w1))) e bs g).
Proof.
intros A Hs He Hre Hm Hop. rewrite !sendDownstream_unfold. fold A.
rewrite <- Hs. destruct (start_err (outcome A w1)) as [e|] eqn:Es.
- exists (Some e), [], []. rewrite !stepped_nil.
  repeat split; auto; discriminate.
- destruct (runs_archive_body out open
    (mkCmd A true (Some (outcome A w1))) (mkCmd A true (Some (outcome A w2)))
    _ _ He Hre (launched A w1) (launched A w2)) as (e & bs & g & E1 & E2 & Hp).
  + unfold agree. rewrite !sink_mode_launched. exact Hm.
  + rewrite sink_mode_launched. exact Hop.
  + exists e, bs, g. split; [exact E1|]. split; [exact E2|].
    split; [congruence|]. intros _. exact Hp.
Qed.

(** C1. Determinism of the archive path. Take two invocations of
    [sendDownstream] for the same commit and subtree whose subprocesses
    see the same mirror: they start alike, exit alike, and their archives
    hold the same entries, whatever the time stamps. On sinks in the same
    state both return the same result and leave byte-identical output,
    and every header they hand to the tar writer carries the epoch as its
    modification time. *)
Theorem archive_is_deterministic gd commit tree out (w1 w2 : World) :
  let A := archive_argv gd commit tree in
  start_err (outcome A w1) = start_err (outcome A w2) ->
  exit_err (outcome A w1) = exit_err (outcome A w2) ->
  Tar.retime epoch (tar_decode (proc_stdout (outcome A w1)))
    = Tar.retime epoch (tar_decode (proc_stdout (outcome A w2))) ->
  sink_mode out w1 = sink_mode out w2 ->
  content out w1 = content out w2 ->
  exists e g,
    (sendDownstream gd commit tree out w1).1 = e
    /\ (sendDownstream gd commit tree out w2).1 = e
    /\ content out (sendDownstream gd commit tree out w1).2
       = content out (sendDownstream gd commit tree out w2).2
    /\ ghost (sendDownstream gd commit tree out w1).2 = g ++ ghost w1
    /\ ghost (sendDownstream gd commit tree out w2).2 = g ++ ghost w2
    /\ forall h, In (GhWriteHeader h) g -> Tar.ModTime h = epoch.
Proof.
intros A Hs He Hre Hm Hc.
destruct (sendDownstream_sim gd commit tree out false w1 w2 Hs He Hre Hm)
  as (e & bs & g & E1 & E2 & Hfail & Hok); [discriminate|].
fold A in E1, E2, Hfail, Hok. exists e, g. rewrite E1, E2. cbn [fst snd].
rewrite !content_stepped, !sink_mode_launched, !content_launched,
  !ghost_stepped, !ghost_launched, Hm, Hc.
repeat split; auto.
intros h Hin. destruct (start_err (outcome A w1)) as [e0|] eqn:Es.
- assert (g = []) as -> by (apply Hfail; discriminate). destruct Hin.
- destruct (Hok eq_refl) as (Hg & _).
  rewrite List.Forall_forall in Hg. exact (Hg _ Hin).
Qed.

(** ** Fetching and retrying *)

Lemma fetchUpstream_unfold gd repo branch (w : World) :
  let F := fetch_argv gd repo branch in
  fetchUpstream gd repo branch w = (run_err (outcome F w), launched F w).
Proof.
cbn zeta. unfold fetchUpstream, makeCommand, Cmd_Run, Cmd_Start, Cmd_Wait,
  exec_Command, log_Println, outcome, launched, fetch_argv, run_err.
io_unfold. cbn.
destruct (exec _ (repo_state w)) as [r st] eqn:E. cbn.
destruct (start_err r); reflexivity.
Qed.

Lemma trace_stepped out bs g (w : World) :
  trace (stepped out bs g w) = trace w.
Proof.
unfold stepped, absorb. destruct out as [|p|u]; cbn; try reflexivity.
destruct (fs w !! p) as [[|d]|]; reflexivity.
Qed.

Lemma trace_launched argv (w : World) :
  trace (launched argv w) = EvExec argv :: trace w.
Proof. reflexivity. Qed.

(** One attempt, in one world. *)
Lemma sendDownstream_run gd commit tree out (w : World) :
  let A := archive_argv gd commit tree in
  let open := bool_decide (sink_mode out w = Open) in
  exists e bs g,
    sendDownstream gd commit tree out w = (e, stepped out bs g (launched A w))
    /\ (start_err (outcome A w) <> nil_error ->
        e = start_err (outcome A w) /\ bs = [] /\ g = [])
    /\ (start_err (outcome A w) = nil_error ->
        body_post out open (mkCmd A true (Some (outcome A w)))
          (tar_decode (proc_stdout (outcome A w))) e bs g).
Proof.
intros A open.
destruct (sendDownstream_sim gd commit tree out open w w)
  as (e & bs & g & E1 & _ & H); auto.
- unfold open. intros Ho. apply bool_decide_eq_true in Ho. exact Ho.
- exists e, bs, g. auto.
Qed.

Lemma sendDownstream_trace gd commit tree out (w : World) :
  trace (sendDownstream gd commit tree out w).2
  = EvExec (archive_argv gd commit tree) :: trace w.
Proof.
destruct (sendDownstream_run gd commit tree out w) as (e & bs & g & E & _).
rewrite E. cbn [snd]. rewrite trace_stepped, trace_launched. reflexivity.
Qed.

Lemma fetchUpstream_trace gd repo branch (w : World) :
  trace (fetchUpstream gd repo branch w).2
  = EvExec (fetch_argv gd repo branch) :: trace w.
Proof. rewrite fetchUpstream_unfold. reflexivity. Qed.

(** The four ways through lines 184-200. *)
Lemma FetchLatest_send_cases gd repo branch commit tree haveFetched out
    (w : World) :
  let A := archive_argv gd commit tree in
  let F := fetch_argv gd repo branch in
  let first := sendDownstream gd commit tree out w in
  let run := FetchLatest_send gd repo branch commit tree haveFetched out w in
  match first.1 with
  | None => run = (nil_error, first.2) /\ trace run.2 = EvExec A :: trace w
  | Some e1 =>
      if haveFetched
      then run = (Some e1, first.2) /\ trace run.2 = EvExec A :: trace w
      else
        let fetched := fetchUpstream gd repo branch first.2 in
        match fetched.1 with
        | Some ef =>
            run = (Some ef, fetched.2)
            /\ trace run.2 = EvExec F :: EvExec A :: trace w
        | None =>
            run = sendDownstream gd commit tree out fetched.2
            /\ trace run.2 = EvExec A :: EvExec F :: EvExec A :: trace w
        end
  end.
Proof.
cbn zeta. unfold FetchLatest_send. io_unfold.
pose proof (sendDownstream_trace gd commit tree out w) as T1.
destruct (sendDownstream gd commit tree out w) as [e1 w1] eqn:E1.
cbn [fst snd] in *. destruct e1 as [e1|]; [|auto].
destruct haveFetched; [auto|].
pose proof (fetchUpstream_trace gd repo branch w1) as T2.
destruct (fetchUpstream gd repo branch w1) as [ef w2] eqn:E2.
cbn [fst snd] in *. destruct ef as [ef|].
- cbn [snd]. rewrite T2, T1. auto.
- split; [reflexivity|].
  rewrite sendDownstream_trace, T2, T1. reflexivity.
Qed.

(** C2. The retry protocol of [FetchLatest]. The archive export is tried
    first. If it succeeds that is the result, and no fetch is run. If it
    fails and [haveFetched] is set, that failure is the result. If it
    fails and [haveFetched] is not set, one fetch is run: its failure is
    the result, and after its success the export is tried once more and
    whatever it returns is the result. The subprocesses run are, in
    order, one archive; or archive, fetch; or archive, fetch, archive:
    never a second fetch, never a third archive. *)
Theorem retry_protocol gd repo branch commit tree haveFetched out
    (w : World) :
  let A := archive_argv gd commit tree in
  let F := fetch_argv gd repo branch in
  let first := sendDownstream gd commit tree out w in
  let run := FetchLatest_send gd repo branch commit tree haveFetched out w in
  match first.1 with
  | None =>
      run = (nil_error, first.2)
      /\ execs (trace run.2) = A :: execs (trace w)
  | Some e1 =>
      if haveFetched
      then run = (Some e1, first.2)
           /\ execs (trace run.2) = A :: execs (trace w)
      else
        let fetched := fetchUpstream gd repo branch first.2 in
        match fetched.1 with
        | Some ef =>
            run = (Some ef, fetched.2)
            /\ execs (trace run.2) = F :: A :: execs (trace w)
        | None =>
            run = sendDownstream gd commit tree out fetched.2
            /\ execs (trace run.2) = A :: F :: A :: execs (trace w)
        end
  end.
Proof.
pose proof (FetchLatest_send_cases gd repo branch commit tree haveFetched
              out w) as H.
cbn zeta in *.
destruct (sendDownstream gd commit tree out w).1; [destruct haveFetched|].
- destruct H as [-> ->]. auto.
- destruct (fetchUpstream _ _ _ _).1; destruct H as [-> ->]; auto.
- destruct H as [-> ->]. auto.
Qed.

(** ** The workspace *)

Lemma preflight_invalid repo branch format cacheDir (w : World) :
  valid repo branch format = false ->
  exists msg,
    preflightAndInit repo branch format cacheDir w
    = ((""%string, Some (errors_New msg)), w).
Proof.
intros Hv. unfold preflightAndInit.
destruct repo as [|r0 repo]; [eexists; reflexivity|].
destruct branch as [|b0 branch]; [eexists; reflexivity|].
destruct format as [|f0 format]; [eexists; reflexivity|].
unfold valid in Hv. cbn in Hv.
cbn [String.length Nat.eqb].
destruct (negb _ && negb _) eqn:E; [eexists; reflexivity|].
exfalso. rewrite andb_false_iff, !negb_false_iff in E.
destruct E as [E|E]; cbn in E; rewrite E in Hv; cbn in Hv;
  rewrite ?orb_true_r in Hv; discriminate.
Qed.

Lemma mkdir1_inl e l : fold_left mkdir1 l (inl e) = inl e.
Proof. induction l; cbn; auto. Qed.

Lemma mkdir_all_spec l : forall (f f' : gmap string node),
  fold_left mkdir1 l (inr f) = inr f' ->
  (forall d, In d l -> f' !! d = Some Dir)
  /\ (forall d x, f !! d = Some x -> f' !! d = Some x)
  /\ (forall d, f' !! d = f !! d \/ f' !! d = Some Dir).
Proof.
induction l as [|a l IH]; intros f f' H.
- cbn in H. injection H as <-. repeat split; auto. intros d [].
- cbn [fold_left] in H. unfold mkdir1 at 2 in H.
  destruct (f !! a) as [[|data]|] eqn:Ea.
  + destruct (IH _ _ H) as (Hall & Hmono & Hnew).
    repeat split; auto. intros d [<-|Hd]; auto.
  + rewrite mkdir1_inl in H. discriminate.
  + destruct (IH _ _ H) as (Hall & Hmono & Hnew).
    repeat split.
    * intros d [<-|Hd]; auto. apply Hmono, lookup_insert_eq.
    * intros d x Hd. apply Hmono. rewrite lookup_insert_ne; auto.
      intros ->. congruence.
    * intros d. destruct (Hnew d) as [Hd|Hd]; auto.
      destruct (decide (a = d)) as [->|Hne].
      -- right. rewrite Hd. apply lookup_insert_eq.
      -- left. rewrite Hd. apply lookup_insert_ne. exact Hne.
Qed.

Lemma run_bind {A B} (m : IO A) (k : A -> IO B) (w : World) :
  (m ≫= k) w = k (m w).1 (m w).2.
Proof. unfold mbind, io_bind, bind. destruct (m w); reflexivity. Qed.

(** The three ways through lines 124-143. *)
Lemma preflight_cases repo branch format cacheDir (w : World) :
  valid repo branch format = true ->
  let gd := Path.Join [cacheDir; cacheKey repo] in
  let run := preflightAndInit repo branch format cacheDir w in
  match os_Stat gd w with
  | (None, w0) => run = ((gd, nil_error), w0) /\ w0 = emit (EvStat gd) w
  | (Some e, w0) =>
      if os_IsNotExist e then
        match os_MkdirAll gd 493 w0 with
        | (Some e', w1) => run = ((""%string, Some e'), w1)
        | (None, w1) =>
            (forall d, In d (Path.ancestors gd ++ [gd]) ->
                       fs w1 !! d = Some Dir)
            /\ run = (match run_err (outcome (init_argv gd) w1) with
                      | Some e' => (""%string, Some e')
                      | None => (gd, nil_error)
                      end, launched (init_argv gd) w1)
            /\ trace run.2
               = [EvExec (init_argv gd); EvMkdirAll gd 493; EvStat gd]
                 ++ trace w
            /\ fs run.2 = fs w1
        end
      else run = ((""%string, Some e), w0) /\ w0 = emit (EvStat gd) w
  end.
Proof.
intros Hv gd run. unfold run. rewrite (preflight_valid _ _ _ _ Hv).
fold gd. cbn zeta. rewrite run_bind.
assert (Hst : (os_Stat gd w).2 = emit (EvStat gd) w).
{ unfold os_Stat. io_unfold. cbn.
  destruct (fs_fault w !! gd); [reflexivity|].
  destruct (fs w !! gd); reflexivity. }
destruct (os_Stat gd w) as [[e|] w0] eqn:Est; cbn [fst snd] in *;
  [|split; [reflexivity|exact Hst]].
destruct (os_IsNotExist e) eqn:Ene; [|split; [reflexivity|exact Hst]].
rewrite run_bind.
assert (Hmk : forall w1, (os_MkdirAll gd 493 w0) = (nil_error, w1) ->
          (forall d, In d (Path.ancestors gd ++ [gd]) -> fs w1 !! d = Some Dir)
          /\ trace w1 = EvMkdirAll gd 493 :: trace w0).
{ intros w1. unfold os_MkdirAll. io_unfold. cbn.
  destruct (fs_fault w0 !! gd); [discriminate|].
  destruct (fold_left mkdir1 _ _) as [e1|f'] eqn:Ef; [discriminate|].
  intros H. injection H as <-. cbn. split; [|reflexivity].
  apply (mkdir_all_spec _ _ _ Ef). }
destruct (os_MkdirAll gd 493 w0) as [[e'|] w1] eqn:Emk; cbn [fst snd];
  [reflexivity|].
destruct (Hmk w1 eq_refl) as (Hdirs & Htr). split; [exact Hdirs|].
unfold makeCommand, Cmd_Run, Cmd_Start, Cmd_Wait, exec_Command, log_Println,
  outcome, launched, init_argv, run_err.
io_unfold. cbn.
destruct (exec _ (repo_state w1)) as [r st] eqn:E. cbn.
destruct (start_err r) as [es|]; [|destruct (exit_err r)]; cbn;
  rewrite Htr, Hst; auto.
Qed.

Lemma preflight_success_inv repo branch format cacheDir (w w' : World) gd :
  preflightAndInit repo branch format cacheDir w = ((gd, nil_error), w') ->
  valid repo branch format = true
  /\ gd = Path.Join [cacheDir; cacheKey repo].
Proof.
intros H. destruct (valid repo branch format) eqn:Hv.
- split; [reflexivity|].
  pose proof (preflight_cases repo branch format cacheDir w Hv) as Hc.
  cbn zeta in Hc. rewrite H in Hc.
  destruct (os_Stat _ w) as [[e|] w0].
  + destruct (os_IsNotExist e).
    * destruct (os_MkdirAll _ _ w0) as [[e'|] w1]; [discriminate|].
      destruct Hc as (_ & Hc & _).
      destruct (run_err _); congruence.
    * destruct Hc as [Hc _]. discriminate.
  + destruct Hc as [Hc _]. congruence.
- destruct (preflight_invalid repo branch format cacheDir w Hv) as [msg Hm].
  rewrite Hm in H. discriminate.
Qed.

(** C4. Ensuring the workspace. With valid fields, the directory is
    [cacheDir] joined with the cache key, and [preflightAndInit] looks
    at it once. If it exists it is returned as it is: nothing but the
    stat happens. If the stat fails for another reason than absence,
    that error is returned and nothing else happens. If it is absent,
    the directory and all its parents are created and the delegate tool
    initialises a bare mirror in it: a failure of either is returned,
    and on success the directory is returned. *)
Theorem workspace_ensuring repo branch format cacheDir (w : World) :
  valid repo branch format = true ->
  let gd := Path.Join [cacheDir; cacheKey repo] in
  let run := preflightAndInit repo branch format cacheDir w in
  match os_Stat gd w with
  | (None, w0) => run = ((gd, nil_error), w0) /\ w0 = emit (EvStat gd) w
  | (Some e, w0) =>
      if os_IsNotExist e then
        match os_MkdirAll gd 493 w0 with
        | (Some e', w1) => run = ((""%string, Some e'), w1)
        | (None, w1) =>
            (forall d, In d (Path.ancestors gd ++ [gd]) ->
                       fs w1 !! d = Some Dir)
            /\ run = (match run_err (outcome (init_argv gd) w1) with
                      | Some e' => (""%string, Some e')
                      | None => (gd, nil_error)
                      end, launched (init_argv gd) w1)
            /\ trace run.2
               = [EvExec (init_argv gd); EvMkdirAll gd 493; EvStat gd]
                 ++ trace w
            /\ fs run.2 = fs w1
        end
      else run = ((""%string, Some e), w0) /\ w0 = emit (EvStat gd) w
  end.
Proof. exact (preflight_cases repo branch format cacheDir w). Qed.

(** C10. The workspace depends on [cacheDir] and [repo] only. Whatever
    the branch and the format, as long as they are valid,
    [preflightAndInit] is the same computation; and any two calls that
    succeed for the same [cacheDir] and [repo], in whatever worlds, return
    the same directory, the join of [cacheDir] and the cache key. (Commit,
    tree and output sink are not even arguments of it.) *)
Theorem workspace_depends_on_repo_only repo cacheDir b1 f1 b2 f2
    (w1 w2 : World) gd1 gd2 w1' w2' :
  preflightAndInit repo b1 f1 cacheDir w1 = ((gd1, nil_error), w1') ->
  preflightAndInit repo b2 f2 cacheDir w2 = ((gd2, nil_error), w2') ->
  gd1 = gd2
  /\ gd1 = Path.Join [cacheDir; cacheKey repo]
  /\ preflightAndInit repo b1 f1 cacheDir
     = preflightAndInit repo b2 f2 cacheDir.
Proof.
intros H1 H2.
destruct (preflight_success_inv _ _ _ _ _ _ _ H1) as [V1 ->].
destruct (preflight_success_inv _ _ _ _ _ _ _ H2) as [V2 ->].
repeat split. rewrite !preflight_valid by assumption. reflexivity.
Qed.

(** ** Resolving the head *)





Lemma output_command {B} cmd args (K : list byte * error -> IO B)
    (w : World) :
  (makeCommand cmd args ≫= (fun c => Cmd_Output c ≫= K)) w
  = K (proc_stdout (outcome (cmd :: args) w),
       run_err (outcome (cmd :: args) w)) (launched (cmd :: args) w).
Proof.
unfold makeCommand, Cmd_Output, Cmd_Start, Cmd_Wait, Cmd_pipe, exec_Command,
  log_Println, outcome, launched, run_err.
io_unfold. cbn.
destruct (exec _ (repo_state w)) as [r st] eqn:E. cbn.
destruct (start_err r); reflexivity.
Qed.


(** ** Short copies *)


(** ** The sink across attempts *)

Lemma sinks_stepped out bs g (w : World) :
  sinks (stepped out bs g w) = sinks (absorb out bs w).
Proof. reflexivity. Qed.

Lemma sinks_launched argv (w : World) : sinks (launched argv w) = sinks w.
Proof. reflexivity. Qed.

Lemma absorb_absorb out b1 b2 (w : World) :
  absorb out b2 (absorb out b1 w) = absorb out (b1 ++ b2) w.
Proof.
rewrite <- !stepped_no_ghost, stepped_stepped. reflexivity.
Qed.

Lemma sinks_absorb_congr out bs (w1 w2 : World) :
  sinks w1 = sinks w2 -> sinks (absorb out bs w1) = sinks (absorb out bs w2).
Proof.
unfold sinks. intros H. injection H as Hf Hb Hr Hg.
unfold absorb. destruct out as [|p|u]; cbn; rewrite ?Hf, ?Hb, ?Hr, ?Hg;
  try reflexivity.
destruct (fs w2 !! p) as [[|d]|]; cbn; rewrite ?Hf, ?Hb, ?Hr, ?Hg;
  reflexivity.
Qed.

Lemma sink_mode_sinks out (w1 w2 : World) :
  sinks w1 = sinks w2 -> sink_mode out w1 = sink_mode out w2.
Proof.
unfold sinks. intros H. injection H as Hf Hb Hr Hg.
unfold sink_mode. rewrite Hf, Hr. reflexivity.
Qed.

Lemma content_sinks out (w1 w2 : World) :
  sinks w1 = sinks w2 -> content out w1 = content out w2.
Proof.
unfold sinks. intros H. injection H as Hf Hb Hr Hg.
unfold content. rewrite Hf, Hb, Hg. reflexivity.
Qed.

Lemma content_absorb out bs (w : World) :
  sink_mode out w <> Closed ->
  content out (absorb out bs w) = content out w ++ bs.
Proof.
intros H. rewrite <- stepped_no_ghost, content_stepped.
destruct (decide _); [contradiction|reflexivity].
Qed.

Lemma sink_mode_absorb out bs (w : World) :
  sink_mode out (absorb out bs w) = mode_after (sink_mode out w) bs.
Proof. rewrite <- stepped_no_ghost. apply sink_mode_stepped. Qed.

(** What one attempt does to the world. *)
Lemma sendDownstream_summary gd commit tree out (w : World) :
  let run := sendDownstream gd commit tree out w in
  let r := outcome (archive_argv gd commit tree) w in
  exists bs,
    sinks run.2 = sinks (absorb out bs w)
    /\ os_Stdout run.2 = os_Stdout w
    /\ trace run.2 = EvExec (archive_argv gd commit tree) :: trace w
    /\ (sink_mode out w = Open -> run.1 = nil_error ->
        exists front, bs = front ++ trailer)
    /\ (sink_mode out w = Open -> start_err r = nil_error ->
        clean (tar_decode (proc_stdout r)) ->
        bs = reencode (tar_decode (proc_stdout r)) ++ trailer).
Proof.
cbn zeta.
destruct (sendDownstream_run gd commit tree out w)
  as (e & bs & g & E & Hfail & Hok).
rewrite E. cbn [fst snd]. exists bs.
rewrite sinks_stepped, trace_stepped, trace_launched.
split; [apply sinks_absorb_congr, sinks_launched|].
split. { unfold stepped, absorb. destruct out as [|p|u]; cbn; try reflexivity.
         destruct (fs w !! p) as [[|d]|]; reflexivity. }
split; [reflexivity|].
destruct (start_err (outcome (archive_argv gd commit tree) w)) as [e0|] eqn:Es.
- destruct Hfail as (-> & -> & ->); [discriminate|].
  split; [discriminate|]. discriminate.
- destruct (Hok eq_refl) as (_ & _ & Htr & Hcl).
  split.
  + intros Ho He. apply Htr; auto. apply bool_decide_eq_true. exact Ho.
  + intros Ho _ Hc. apply Hcl; auto. apply bool_decide_eq_true. exact Ho.
Qed.

(** C9. The sink is not reset between attempts. On the retry path of
    [FetchLatest] (the first export failed, the fetch succeeded) both
    exports write to the same sink, which only grows: after the retry it
    holds what it held, then what the failed attempt wrote, then what the
    retry wrote. When the first subprocess started and left a well-formed
    archive (an empty one, when the commit was missing), the residue is
    that archive re-encoded and the end-of-archive trailer that the
    deferred [tarOut.Close()] flushed; a retry that succeeds ends with a
    trailer of its own. *)
Theorem retry_appends_to_sink gd repo branch commit tree out
    (w : World) e1 w1 w2 e2 w3 :
  sink_mode out w = Open ->
  sendDownstream gd commit tree out w = (Some e1, w1) ->
  fetchUpstream gd repo branch w1 = (nil_error, w2) ->
  sendDownstream gd commit tree out w2 = (e2, w3) ->
  let first := outcome (archive_argv gd commit tree) w in
  let retry := outcome (archive_argv gd commit tree) w2 in
  FetchLatest_send gd repo branch commit tree false out w = (e2, w3)
  /\ exists residue second,
       content out w1 = content out w ++ residue
       /\ content out w2 = content out w1
       /\ content out w3 = content out w ++ residue ++ second
       /\ (start_err first = nil_error ->
           clean (tar_decode (proc_stdout first)) ->
           residue = reencode (tar_decode (proc_stdout first)) ++ trailer)
       /\ (e2 = nil_error -> exists front, second = front ++ trailer)
       /\ (start_err retry = nil_error ->
           clean (tar_decode (proc_stdout retry)) ->
           second = reencode (tar_decode (proc_stdout retry)) ++ trailer).
Proof.
intros Ho H1 H2 H3 first retry. split.
{ unfold FetchLatest_send. rewrite run_bind, H1. cbn [fst snd].
  rewrite run_bind, H2. cbn [fst snd]. exact H3. }
destruct (sendDownstream_summary gd commit tree out w)
  as (residue & S1 & _ & _ & _ & Hc1).
rewrite H1 in S1. cbn [fst snd] in S1.
assert (Ho1 : sink_mode out w1 = Open).
{ rewrite (sink_mode_sinks _ _ _ S1), sink_mode_absorb, Ho. reflexivity. }
assert (S2 : sinks w2 = sinks w1).
{ rewrite fetchUpstream_unfold in H2. injection H2 as _ <-.
  apply sinks_launched. }
assert (Ho2 : sink_mode out w2 = Open).
{ rewrite (sink_mode_sinks _ _ _ S2). exact Ho1. }
destruct (sendDownstream_summary gd commit tree out w2)
  as (second & S3 & _ & _ & Ht2 & Hc2).
rewrite H3 in S3, Ht2. cbn [fst snd] in S3, Ht2.
assert (C1 : content out w1 = content out w ++ residue).
{ rewrite (content_sinks _ _ _ S1). apply content_absorb. congruence. }
exists residue, second. split; [exact C1|].
split; [apply content_sinks, S2|]. split.
{ rewrite (content_sinks _ _ _ S3), content_absorb by congruence.
  rewrite (content_sinks _ _ _ S2), C1, app_assoc. reflexivity. }
split; [intros; apply Hc1; auto|].
split; [intros; apply Ht2; auto|].
intros; apply Hc2; auto.
Qed.

(** ** The output sink *)

Lemma os_Stdout_absorb out bs (w : World) :
  os_Stdout (absorb out bs w) = os_Stdout w.
Proof.
unfold absorb. destruct out as [|p|u]; cbn; try reflexivity.
destruct (fs w !! p) as [[|d]|]; reflexivity.
Qed.

Lemma trace_absorb out bs (w : World) : trace (absorb out bs w) = trace w.
Proof. rewrite <- stepped_no_ghost. apply trace_stepped. Qed.

Lemma outputs_sinks (w1 w2 : World) :
  sinks w1 = sinks w2 -> outputs w1 = outputs w2.
Proof. unfold sinks, outputs. congruence. Qed.

Lemma outputs_absorb_congr out bs (w1 w2 : World) :
  outputs w1 = outputs w2 ->
  outputs (absorb out bs w1) = outputs (absorb out bs w2).
Proof.
unfold outputs. intros H. injection H as Hf Hb Hr.
unfold absorb. destruct out as [|p|u]; cbn; rewrite ?Hf, ?Hb, ?Hr;
  try reflexivity.
destruct (fs w2 !! p) as [[|d]|]; cbn; rewrite ?Hf, ?Hb, ?Hr; reflexivity.
Qed.

Lemma sink_mode_outputs out (w1 w2 : World) :
  outputs w1 = outputs w2 -> sink_mode out w1 = sink_mode out w2.
Proof.
unfold outputs. intros H. injection H as Hf Hb Hr.
unfold sink_mode. rewrite Hf, Hr. reflexivity.
Qed.

(** What lines 184-200 do to the world: whatever the path taken,
    everything written went to [out]. *)
Lemma FetchLatest_send_summary gd repo branch commit tree haveFetched out
    (w : World) :
  let run := FetchLatest_send gd repo branch commit tree haveFetched out w in
  exists bs,
    sinks run.2 = sinks (absorb out bs w)
    /\ os_Stdout run.2 = os_Stdout w
    /\ creates (trace run.2) = creates (trace w)
    /\ (sink_mode out w = Open -> run.1 = nil_error ->
        exists front, bs = front ++ trailer).
Proof.
cbn zeta.
pose proof (FetchLatest_send_cases gd repo branch commit tree haveFetched
              out w) as H.
cbn zeta in H.
destruct (sendDownstream_summary gd commit tree out w)
  as (bs1 & S1 & O1 & _ & T1 & _).
destruct (sendDownstream gd commit tree out w) as [e1 w1] eqn:E1.
cbn [fst snd] in *.
destruct e1 as [e1|]; [destruct haveFetched|].
- destruct H as [-> Ht]. cbn [fst snd] in *. exists bs1.
  split; [exact S1|]. split; [exact O1|]. split; [rewrite Ht; reflexivity|].
  discriminate.
- rewrite fetchUpstream_unfold in H. cbn [fst snd] in H.
  destruct (run_err (outcome (fetch_argv gd repo branch) w1)) as [ef|].
  + destruct H as [-> Ht]. cbn [fst snd] in *. exists bs1.
    split; [rewrite sinks_launched; exact S1|].
    split; [exact O1|]. split; [rewrite Ht; reflexivity|]. discriminate.
  + destruct H as [Hrun Ht].
    destruct (sendDownstream_summary gd commit tree out
                (launched (fetch_argv gd repo branch) w1))
      as (bs2 & S2 & O2 & _ & T2 & _).
    rewrite <- Hrun in S2, O2, T2.
    exists (bs1 ++ bs2).
    split.
    { rewrite S2, <- absorb_absorb. apply sinks_absorb_congr.
      rewrite sinks_launched. exact S1. }
    split; [rewrite O2; exact O1|].
    split; [rewrite Ht; reflexivity|].
    intros Ho He. destruct T2 as [front Hf]; [|exact He|].
    { rewrite (sink_mode_sinks out _ w1) by apply sinks_launched.
      rewrite (sink_mode_sinks _ _ _ S1), sink_mode_absorb, Ho.
      reflexivity. }
    exists (bs1 ++ front). rewrite Hf, app_assoc. reflexivity.
- destruct H as [-> Ht]. cbn [fst snd] in *. exists bs1.
  split; [exact S1|]. split; [exact O1|]. split; [rewrite Ht; reflexivity|].
  exact T1.
Qed.

(** The archive goes to the writer [under], directly for tar and through
    a gzip writer for tgz: [under] takes [bytes] and nothing else is
    touched; when it is open, [bytes] is the tar text [plain], compressed
    for tgz. *)
Lemma FetchLatest_wrap gd repo branch commit tree format haveFetched under
    (w : World) :
  let run :=
    (if String.eqb format "tgz" then
       gzipper ← gzip_NewWriter under;
       defer (gzip_Close gzipper)
         (FetchLatest_send gd repo branch commit tree haveFetched gzipper)
     else
       FetchLatest_send gd repo branch commit tree haveFetched under) w in
  exists bytes plain,
    outputs run.2 = outputs (absorb under bytes w)
    /\ os_Stdout run.2 = os_Stdout w
    /\ creates (trace run.2) = creates (trace w)
    /\ (sink_mode under w = Open -> bytes = packed format plain)
    /\ (sink_mode under w = Open -> run.1 = nil_error ->
        exists front, plain = front ++ trailer).
Proof.
cbn zeta. unfold packed. destruct (String.eqb format "tgz").
- unfold gzip_NewWriter, gzip_Close, defer. io_unfold.
  destruct (FetchLatest_send_summary gd repo branch commit tree haveFetched
              (gzipWriter under) (with_gz [] w)) as (bs & S & O & C & T).
  destruct (FetchLatest_send gd repo branch commit tree haveFetched
              (gzipWriter under) (with_gz [] w)) as [e w'] eqn:E.
  cbn [fst snd] in *. unfold id.
  rewrite Write_spec. cbn [fst snd].
  assert (Hg : gz_plain w' = bs).
  { unfold sinks in S. injection S as _ _ _ ->. reflexivity. }
  assert (Ho : outputs w' = outputs w).
  { apply outputs_sinks in S. rewrite S. reflexivity. }
  rewrite Hg.
  exists (accepted (sink_mode under w') (gzip_encode bs)), bs.
  split; [apply outputs_absorb_congr, Ho|].
  split; [rewrite os_Stdout_absorb; exact O|].
  split; [rewrite trace_absorb; exact C|].
  split.
  + intros Hu. rewrite (sink_mode_outputs _ _ _ Ho), Hu. reflexivity.
  + intros _ He. apply T; [reflexivity|exact He].
- destruct (FetchLatest_send_summary gd repo branch commit tree haveFetched
              under w) as (bs & S & O & C & T).
  exists bs, bs. split; [apply outputs_sinks, S|].
  split; [exact O|]. split; [exact C|]. split; [reflexivity|exact T].
Qed.

(** [os.Create] fails and leaves the tree alone, or leaves an empty
    file. *)
Lemma os_Create_cases path (w : World) :
  os_Create path w
  = ((osFile path, (os_Create path w).1.2),
     match (os_Create path w).1.2 with
     | Some _ => emit (EvCreate path) w
     | None => with_fs (<[path := File []]> (fs w)) (emit (EvCreate path) w)
     end).
Proof.
unfold os_Create. io_unfold. cbn.
destruct (fs_fault w !! path); [reflexivity|].
destruct (fs w !! path) as [[|d]|]; reflexivity.
Qed.

Lemma os_Create_err_frame path (w w' : World) :
  fs w = fs w' -> fs_fault w = fs_fault w' ->
  (os_Create path w).1.2 = (os_Create path w').1.2.
Proof.
intros Hf Hx. unfold os_Create. io_unfold. cbn. rewrite Hf, Hx.
destruct (fs_fault w' !! path); [reflexivity|].
destruct (fs w' !! path) as [[|d]|]; reflexivity.
Qed.

(** Lines 169-177: with an output directory, the path goes to standard
    output and the file is created before anything is sent. *)
Lemma FetchLatest_sink_file gd repo branch commit tree format haveFetched
    outputDir ourOutput (w : World) :
  (String.length outputDir =? 0)%nat = false ->
  let fpath := Path.Join [outputDir; (commit ++ "." ++ format)%string] in
  let ws :=
    emit (EvCreate fpath)
      (with_stdout (os_Stdout w ++ list_byte_of_string fpath) w) in
  FetchLatest_sink gd repo branch commit tree format haveFetched outputDir
    ourOutput w
  = match (os_Create fpath w).1.2 with
    | Some e => (Some e, ws)
    | None =>
        (if String.eqb format "tgz" then
           gzipper ← gzip_NewWriter (osFile fpath);
           defer (gzip_Close gzipper)
             (FetchLatest_send gd repo branch commit tree haveFetched
                gzipper)
         else
           FetchLatest_send gd repo branch commit tree haveFetched
             (osFile fpath))
          (with_fs (<[fpath := File []]> (fs w)) ws)
    end.
Proof.
intros Hd fpath ws. unfold FetchLatest_sink. rewrite Hd. cbn zeta.
fold fpath. rewrite run_bind. unfold os_Stdout_Write, modify.
cbn [fst snd].
rewrite run_bind, (os_Create_cases fpath). cbn [fst snd].
rewrite (os_Create_err_frame fpath _ w) by reflexivity.
fold ws.
destruct (os_Create fpath w).1.2 as [ec|]; [reflexivity|].
unfold defer at 1, os_File_Close. rewrite !run_bind.
unfold mret, io_ret, ret. cbn [fst snd].
rewrite <- surjective_pairing. reflexivity.
Qed.



(** ** Subprocesses run and logged *)

Lemma ran_same (w w' : World) :
  trace w' = trace w -> log_lines w' = log_lines w -> ran [] w w'.
Proof.
intros Ht Hl. split; [rewrite Ht; reflexivity|].
rewrite Hl, app_nil_r. reflexivity.
Qed.

Lemma ran_trans a b (w w' w'' : World) :
  ran a w w' -> ran b w' w'' -> ran (a ++ b) w w''.
Proof.
intros [Ha La] [Hb Lb]. split.
- rewrite Hb, Ha, rev_app_distr, app_assoc. reflexivity.
- rewrite Lb, La, map_app, app_assoc. reflexivity.
Qed.

Lemma ran_launched argv (w : World) : ran [argv] w (launched argv w).
Proof. split; reflexivity. Qed.

Lemma log_absorb out bs (w : World) :
  log_lines (absorb out bs w) = log_lines w.
Proof.
unfold absorb. destruct out as [|p|u]; cbn; try reflexivity.
destruct (fs w !! p) as [[|d]|]; reflexivity.
Qed.

Lemma ran_absorb out bs (w : World) : ran [] w (absorb out bs w).
Proof. apply ran_same; [apply trace_absorb|apply log_absorb]. Qed.

Lemma ran_stepped out bs g (w : World) : ran [] w (stepped out bs g w).
Proof.
apply ran_same; [apply trace_stepped|].
unfold stepped. cbn. apply log_absorb.
Qed.

Lemma sendDownstream_ran gd commit tree out (w : World) :
  ran [archive_argv gd commit tree] w (sendDownstream gd commit tree out w).2.
Proof.
destruct (sendDownstream_run gd commit tree out w) as (e & bs & g & E & _).
rewrite E. cbn [snd].
apply (ran_trans [_] [] _ _ _ (ran_launched _ w)), ran_stepped.
Qed.

Lemma fetchUpstream_ran gd repo branch (w : World) :
  ran [fetch_argv gd repo branch] w (fetchUpstream gd repo branch w).2.
Proof. rewrite fetchUpstream_unfold. apply ran_launched. Qed.

(** Lines 184-200 run the archive; or the archive, then the fetch; or the
    archive, the fetch and the archive again. *)
Lemma FetchLatest_send_ran gd repo branch commit tree haveFetched out
    (w : World) :
  let A := archive_argv gd commit tree in
  let F := fetch_argv gd repo branch in
  let run := FetchLatest_send gd repo branch commit tree haveFetched out w in
  exists body,
    ran body w run.2
    /\ (body = [A] \/ (haveFetched = false
                       /\ (body = [A; F] \/ body = [A; F; A]))).
Proof.
cbn zeta. unfold FetchLatest_send. rewrite run_bind.
pose proof (sendDownstream_ran gd commit tree out w) as R1.
destruct (sendDownstream gd commit tree out w) as [[e1|] w1];
  cbn [fst snd] in *; [|eauto].
destruct haveFetched; [eauto|].
rewrite run_bind.
pose proof (fetchUpstream_ran gd repo branch w1) as R2.
destruct (fetchUpstream gd repo branch w1) as [[ef|] w2]; cbn [fst snd] in *.
- exists [archive_argv gd commit tree; fetch_argv gd repo branch].
  split; [exact (ran_trans [_] [_] _ _ _ R1 R2)|auto].
- exists [archive_argv gd commit tree; fetch_argv gd repo branch;
          archive_argv gd commit tree].
  split; [|auto].
  apply (ran_trans [_] [_; _] _ _ _ R1).
  apply (ran_trans [_] [_] _ _ _ R2). apply sendDownstream_ran.
Qed.

(** The two ways through [getHeadCommit]. *)
Lemma getHeadCommit_cases gd repo branch (w : World) :
  let F := fetch_argv gd repo branch in
  let R := rev_parse_argv gd branch in
  let run := getHeadCommit gd repo branch w in
  match run_err (outcome F w) with
  | Some e => run = ((""%string, Some e), launched F w)
  | None =>
      run.2 = launched R (launched F w)
      /\ run.1.2 = run_err (outcome R (launched F w))
  end.
Proof.
cbn zeta. unfold getHeadCommit. rewrite run_bind, fetchUpstream_unfold.
cbn [fst snd].
destruct (run_err (outcome (fetch_argv gd repo branch) w)) as [e|] eqn:Ef.
{ reflexivity. }
rewrite output_command. fold (rev_parse_argv gd branch).
destruct (run_err (outcome (rev_parse_argv gd branch) _)) as [e|] eqn:Er;
  split; reflexivity.
Qed.

Lemma getHeadCommit_ran gd repo branch (w : World) :
  let F := fetch_argv gd repo branch in
  let R := rev_parse_argv gd branch in
  let run := getHeadCommit gd repo branch w in
  exists body,
    ran body w run.2
    /\ (body = [F; R] \/ (body = [F] /\ run.1.2 <> nil_error)).
Proof.
cbn zeta. pose proof (getHeadCommit_cases gd repo branch w) as H.
cbn zeta in H.
destruct (run_err (outcome (fetch_argv gd repo branch) w)) as [e|].
- rewrite H. cbn [fst snd]. exists [fetch_argv gd repo branch].
  split; [apply ran_launched|]. right. split; [reflexivity|discriminate].
- destruct H as [-> _].
  exists [fetch_argv gd repo branch; rev_parse_argv gd branch].
  split; [|auto].
  exact (ran_trans [_] [_] _ _ _ (ran_launched _ w) (ran_launched _ _)).
Qed.

(** What [preflightAndInit] does to the world, whatever the request: it
    runs nothing or the init, it only ever adds directories to the file
    tree, and it leaves the streams alone. When it succeeds, or when the
    init ran, the workspace directory exists afterwards. *)
Lemma preflight_effects repo branch format cacheDir (w : World) :
  let gd := Path.Join [cacheDir; cacheKey repo] in
  let run := preflightAndInit repo branch format cacheDir w in
  exists pre,
    ran pre w run.2
    /\ (pre = [] \/ pre = [init_argv gd])
    /\ (forall p x, fs w !! p = Some x -> fs run.2 !! p = Some x)
    /\ (forall p, fs run.2 !! p = fs w !! p \/ fs run.2 !! p = Some Dir)
    /\ fs_fault run.2 = fs_fault w
    /\ os_Stdout run.2 = os_Stdout w
    /\ out_buf run.2 = out_buf w
    /\ out_room run.2 = out_room w
    /\ creates (trace run.2) = creates (trace w)
    /\ (run.1.2 = nil_error \/ pre = [init_argv gd] ->
        (exists x, fs run.2 !! gd = Some x) /\ fs_fault w !! gd = None).
Proof.
intros gd run. unfold run.
destruct (valid repo branch format) eqn:Hv; cycle 1.
{ destruct (preflight_invalid repo branch format cacheDir w Hv) as [msg ->].
  cbn [fst snd]. exists []. split; [apply ran_same; reflexivity|].
  split; [auto|]. split; [auto|]. split; [auto|].
  split; [reflexivity|]. split; [reflexivity|]. split; [reflexivity|].
  split; [reflexivity|]. split; [reflexivity|].
  intros [H|H]; discriminate. }
rewrite (preflight_valid _ _ _ _ Hv). fold gd. cbn zeta.
unfold os_Stat, os_MkdirAll, makeCommand, Cmd_Run, Cmd_Start, Cmd_Wait,
  exec_Command, log_Println.
io_unfold. cbn.
destruct (fs_fault w !! gd) as [ef|] eqn:Eflt.
{ exists []. destruct (os_IsNotExist ef); cbn; rewrite ?Eflt; cbn;
    (split; [split; cbn; rewrite ?app_nil_r; reflexivity|]);
    (split; [auto|]); (split; [auto|]); (split; [auto|]);
    (split; [reflexivity|]); (split; [reflexivity|]);
    (split; [reflexivity|]); (split; [reflexivity|]);
    (split; [reflexivity|]); intros [H|H]; discriminate. }
destruct (fs w !! gd) as [x|] eqn:Efs; cbn.
{ exists []. split; [split; cbn; rewrite ?app_nil_r; reflexivity|].
  split; [auto|]. split; [auto|]. split; [auto|].
  split; [reflexivity|]. split; [reflexivity|]. split; [reflexivity|].
  split; [reflexivity|]. split; [reflexivity|].
  intros _. split; [exists x; exact Efs|reflexivity]. }
rewrite Eflt.
destruct (fold_left mkdir1 (Path.ancestors gd ++ [gd]) (inr (fs w)))
  as [em|f'] eqn:Ef; cbn.
{ exists []. split; [split; cbn; rewrite ?app_nil_r; reflexivity|].
  split; [auto|]. split; [auto|]. split; [auto|].
  split; [reflexivity|]. split; [reflexivity|]. split; [reflexivity|].
  split; [reflexivity|]. split; [reflexivity|].
  intros [H|H]; discriminate. }
destruct (mkdir_all_spec _ _ _ Ef) as (Hall & Hmono & Hnew).
destruct (exec _ (repo_state w)) as [r st] eqn:E. cbn.
exists [init_argv gd].
assert (Hgd : exists x, f' !! gd = Some x).
{ exists Dir. apply Hall. apply in_or_app. right. left. reflexivity. }
destruct (start_err r) as [es|]; [|destruct (exit_err r)]; cbn;
  (split; [split; reflexivity|]);
  (split; [auto|]); (split; [exact Hmono|]); (split; [exact Hnew|]);
  (split; [reflexivity|]); (split; [reflexivity|]);
  (split; [reflexivity|]); (split; [reflexivity|]);
  (split; [reflexivity|]); intros _; (split; [exact Hgd|reflexivity]).
Qed.

Lemma FetchLatest_wrap_ran gd repo branch commit tree format haveFetched
    under (w : World) :
  let A := archive_argv gd commit tree in
  let F := fetch_argv gd repo branch in
  let run :=
    (if String.eqb format "tgz" then
       gzipper ← gzip_NewWriter under;
       defer (gzip_Close gzipper)
         (FetchLatest_send gd repo branch commit tree haveFetched gzipper)
     else
       FetchLatest_send gd repo branch commit tree haveFetched under) w in
  exists body,
    ran body w run.2
    /\ (body = [A] \/ (haveFetched = false
                       /\ (body = [A; F] \/ body = [A; F; A]))).
Proof.
cbn zeta. destruct (String.eqb format "tgz").
- unfold gzip_NewWriter, gzip_Close, defer. io_unfold.
  destruct (FetchLatest_send_ran gd repo branch commit tree haveFetched
              (gzipWriter under) (with_gz [] w)) as (body & R & Hb).
  cbn zeta in R.
  destruct (FetchLatest_send gd repo branch commit tree haveFetched
              (gzipWriter under) (with_gz [] w)) as [e w'] eqn:E.
  cbn [fst snd] in *. unfold id. rewrite Write_spec. cbn [fst snd].
  exists body. split; [|exact Hb].
  rewrite <- (app_nil_r body).
  apply (ran_trans body [] w w'); [|apply ran_absorb].
  destruct R as [R1 R2]. split; [exact R1|exact R2].
- apply FetchLatest_send_ran.
Qed.

Lemma FetchLatest_sink_ran gd repo branch commit tree format haveFetched
    outputDir out (w : World) :
  let A := archive_argv gd commit tree in
  let F := fetch_argv gd repo branch in
  let run :=
    FetchLatest_sink gd repo branch commit tree format haveFetched outputDir
      out w in
  exists body,
    ran body w run.2
    /\ (body = [] \/ body = [A]
        \/ (haveFetched = false /\ (body = [A; F] \/ body = [A; F; A]))).
Proof.
cbn zeta. destruct (String.length outputDir =? 0)%nat eqn:Hd.
- unfold FetchLatest_sink. rewrite Hd. cbn zeta.
  destruct (FetchLatest_wrap_ran gd repo branch commit tree format
              haveFetched out w) as (body & R & Hb).
  exists body. split; [exact R|]. right. exact Hb.
- rewrite FetchLatest_sink_file by exact Hd. cbn zeta.
  set (fpath := Path.Join [outputDir; (commit ++ "." ++ format)%string]).
  destruct (os_Create fpath w).1.2 as [ec|].
  + exists []. split; [|auto]. cbn [snd].
    split; cbn; rewrite ?app_nil_r; reflexivity.
  + match goal with
    | |- context [with_fs ?f ?w0] => set (wc := with_fs f w0)
    end.
    destruct (FetchLatest_wrap_ran gd repo branch commit tree format
                haveFetched (osFile fpath) wc) as (body & R & Hb).
    exists body. split; [|right; exact Hb].
    change body with ([] ++ body).
    apply (ran_trans [] body w wc); [|exact R].
    split; cbn; rewrite ?app_nil_r; reflexivity.
Qed.

(** The subprocesses of a whole request, and their log lines. *)
Lemma FetchLatest_ran repo branch commit tree format cacheDir outputDir out
    (w : World) :
  let gd := Path.Join [cacheDir; cacheKey repo] in
  let I := init_argv gd in
  let F := fetch_argv gd repo branch in
  let R := rev_parse_argv gd branch in
  let run :=
    FetchLatest repo branch commit tree format cacheDir outputDir out w in
  exists pre body,
    ran (pre ++ body) w run.2
    /\ (pre = [] \/ pre = [I])
    /\ (if (String.length commit =? 0)%nat
        then body = [] \/ body = [F] \/ body = [F; R]
             \/ exists c, body = [F; R; archive_argv gd c tree]
        else let A := archive_argv gd commit tree in
             body = [] \/ body = [A] \/ body = [A; F] \/ body = [A; F; A]).
Proof.
intros gd I F R run. unfold run, FetchLatest. rewrite run_bind.
destruct (preflight_effects repo branch format cacheDir w)
  as (pre & Rp & Hpre & _).
cbn zeta in Rp. fold gd I in Hpre.
destruct (preflightAndInit repo branch format cacheDir w)
  as [[gd' [e|]] w1] eqn:Ep; cbn [fst snd] in *.
{ exists pre, []. rewrite app_nil_r. split; [exact Rp|].
  split; [exact Hpre|]. destruct (String.length commit =? 0)%nat; auto. }
destruct (preflight_success_inv _ _ _ _ _ _ _ Ep) as [_ Hgd].
fold gd in Hgd. subst gd'.
destruct (String.length commit =? 0)%nat.
- rewrite !run_bind.
  destruct (getHeadCommit_ran gd repo branch w1) as (b1 & R1 & H1).
  cbn zeta in R1. fold F R in H1.
  destruct (getHeadCommit gd repo branch w1) as [[c [e|]] w2];
    cbn [fst snd] in *.
  + exists pre, b1. split; [exact (ran_trans _ _ _ _ _ Rp R1)|].
    split; [exact Hpre|]. destruct H1 as [->|[-> _]]; auto.
  + destruct H1 as [->|[_ H1]]; [|congruence].
    destruct (FetchLatest_sink_ran gd repo branch c tree format true
                outputDir out w2) as (b2 & R2 & H2).
    cbn zeta in R2.
    exists pre, ([F; R] ++ b2).
    split.
    { apply (ran_trans _ _ _ _ _ Rp). exact (ran_trans _ _ _ _ _ R1 R2). }
    split; [exact Hpre|].
    destruct H2 as [->|[->|[H2 _]]]; [auto| |discriminate].
    right. right. right. exists c. reflexivity.
- cbn [fst snd].
  destruct (FetchLatest_sink_ran gd repo branch commit tree format false
              outputDir out w1) as (b2 & R2 & H2).
  cbn zeta in R2.
  exists pre, b2. split; [exact (ran_trans _ _ _ _ _ Rp R2)|].
  split; [exact Hpre|]. cbn zeta.
  destruct H2 as [->|[->|[_ [->| ->]]]]; auto.
Qed.

(** X1. One request runs at most four subprocesses, and fetches at most once.
    Oldest first they are: the init, when the workspace was missing; then,
    with no commit given, the fetch, the rev-parse and one archive (the
    request stops at whichever fails); with a commit given, the archive,
    and after its failure the fetch and the archive once more. *)
Theorem subprocess_budget repo branch commit tree format cacheDir outputDir
    out (w : World) :
  let gd := Path.Join [cacheDir; cacheKey repo] in
  let I := init_argv gd in
  let F := fetch_argv gd repo branch in
  let R := rev_parse_argv gd branch in
  let run :=
    FetchLatest repo branch commit tree format cacheDir outputDir out w in
  exists pre body,
    execs (trace run.2) = rev (pre ++ body) ++ execs (trace w)
    /\ (pre = [] \/ pre = [I])
    /\ (if (String.length commit =? 0)%nat
        then body = [] \/ body = [F] \/ body = [F; R]
             \/ exists c, body = [F; R; archive_argv gd c tree]
        else let A := archive_argv gd commit tree in
             body = [] \/ body = [A] \/ body = [A; F] \/ body = [A; F; A])
    /\ (List.length (pre ++ body) <= 4)%nat
    /\ (List.length (List.filter is_fetch (pre ++ body)) <= 1)%nat.
Proof.
intros gd I F R run.
destruct (FetchLatest_ran repo branch commit tree format cacheDir outputDir
            out w) as (pre & body & [Hr _] & Hpre & Hbody).
fold gd I F R run in Hr, Hpre, Hbody.
exists pre, body. split; [exact Hr|]. split; [exact Hpre|].
split; [exact Hbody|].
unfold I, F, R, init_argv, fetch_argv, rev_parse_argv, archive_argv in *.
destruct (String.length commit =? 0)%nat.
- destruct Hpre as [->| ->];
    destruct Hbody as [->|[->|[->|[c ->]]]]; cbn; lia.
- cbn zeta in Hbody.
  destruct Hpre as [->| ->];
    destruct Hbody as [->|[->|[->| ->]]]; cbn; lia.
Qed.

(** X2. Every subprocess is logged: the lines one request adds to the log are
    the command lines of the subprocesses it ran, in the order they ran,
    each one the words of the command joined by single spaces. *)
Theorem every_subprocess_is_logged repo branch commit tree format cacheDir
    outputDir out (w : World) :
  let run :=
    FetchLatest repo branch commit tree format cacheDir outputDir out w in
  exists new,
    execs (trace run.2) = rev new ++ execs (trace w)
    /\ log_lines run.2 = log_lines w ++ map log_line new
    /\ Forall (fun argv => exists args,
                 argv = "git"%string :: args
                 /\ log_line argv = ("git " ++ String.concat " " args)%string)
         new.
Proof.
intros run.
destruct (FetchLatest_ran repo branch commit tree format cacheDir outputDir
            out w) as (pre & body & [Hr Hl] & Hpre & Hbody).
exists (pre ++ body). split; [exact Hr|]. split; [exact Hl|].
apply Forall_app. split.
- destruct Hpre as [->| ->]; [constructor|].
  constructor; [|constructor]. eexists. split; reflexivity.
- destruct (String.length commit =? 0)%nat.
  + destruct Hbody as [->|[->|[->|[c ->]]]];
      repeat (constructor; [eexists; split; reflexivity|]); constructor.
  + cbn zeta in Hbody. destruct Hbody as [->|[->|[->| ->]]];
      repeat (constructor; [eexists; split; reflexivity|]); constructor.
Qed.

(** ** One attempt, end to end *)

(** An attempt over a well-formed archive, into an open sink. *)
Lemma sendDownstream_clean gd commit tree out (w : World) :
  let A := archive_argv gd commit tree in
  let r := outcome A w in
  let s := tar_decode (proc_stdout r) in
  sink_mode out w = Open -> start_err r = nil_error -> clean s ->
  exists g,
    sendDownstream gd commit tree out w
    = (if decide (ending s = io_EOF) then exit_err r else Some (ending s),
       stepped out (reencode s ++ trailer) g (launched A w)).
Proof.
intros A r s Ho Hs Hc.
destruct (sendDownstream_run gd commit tree out w)
  as (e & bs & g & E & _ & Hok).
destruct (Hok Hs) as (_ & _ & _ & Hcl).
destruct Hcl as [-> ->]; [apply bool_decide_eq_true; exact Ho|exact Hc|].
exists g. exact E.
Qed.

(** X3. What [sendDownstream] writes for a well-formed archive. When the
    subprocess starts and every entry of its archive can be written back,
    an attempt into an open sink appends, for each entry in order, the
    header with its modification time reset to the epoch, the declared
    bytes of data and the padding to a full block, and then the
    two-block trailer; nothing the sink held is changed. It returns the
    exit status of the subprocess when the archive ends properly, and
    otherwise the error the reader stopped at: the exit status is then
    not looked at. *)
Theorem sendDownstream_reencodes gd commit tree out (w : World) :
  let A := archive_argv gd commit tree in
  let r := outcome A w in
  let s := tar_decode (proc_stdout r) in
  sink_mode out w = Open -> start_err r = nil_error -> clean s ->
  let run := sendDownstream gd commit tree out w in
  run.1 = (if decide (ending s = io_EOF) then exit_err r
           else Some (ending s))
  /\ content out run.2 = content out w ++ reencode s ++ trailer
  /\ execs (trace run.2) = A :: execs (trace w).
Proof.
intros A r s Ho Hs Hc run.
destruct (sendDownstream_clean gd commit tree out w Ho Hs Hc) as [g E].
unfold run. rewrite E. cbn [fst snd]. split; [reflexivity|].
rewrite content_stepped, sink_mode_launched, content_launched, Ho.
rewrite trace_stepped, trace_launched.
split; [|reflexivity]. destruct (decide (Open = Closed)); [discriminate|].
reflexivity.
Qed.

(** X4. When the subprocess cannot be started, [sendDownstream] returns that
    error before the tar writer exists: the command was logged and
    tried, and nothing at all was written, not even the trailer that
    every later exit leaves behind. *)
Theorem sendDownstream_start_failure gd commit tree out (w : World) e :
  let A := archive_argv gd commit tree in
  start_err (outcome A w) = Some e ->
  sendDownstream gd commit tree out w = (Some e, launched A w)
  /\ sinks (launched A w) = sinks w
  /\ ghost (launched A w) = ghost w
  /\ log_lines (launched A w) = log_lines w ++ [log_line A].
Proof.
intros A Hs. rewrite sendDownstream_unfold. fold A. rewrite Hs.
repeat split.
Qed.

(** ** The workspace, across requests *)

Lemma preflight_existing repo branch format cacheDir (w : World) x :
  let gd := Path.Join [cacheDir; cacheKey repo] in
  valid repo branch format = true ->
  fs w !! gd = Some x -> fs_fault w !! gd = None ->
  preflightAndInit repo branch format cacheDir w
  = ((gd, nil_error), emit (EvStat gd) w).
Proof.
intros gd Hv Hx Hf. rewrite (preflight_valid _ _ _ _ Hv). fold gd.
cbn zeta. unfold os_Stat. io_unfold. cbn. rewrite Hf, Hx. reflexivity.
Qed.

(** X5. The workspace is initialised once. After a [preflightAndInit] that
    succeeded, every later one for the same repository and cache
    directory, whatever its branch and format, in any world where the
    directory still stands, returns the same directory after one stat:
    no directory is made and no subprocess runs. *)
Theorem workspace_is_initialised_once repo cacheDir b1 f1 b2 f2
    (w w1 w2 : World) gd :
  preflightAndInit repo b1 f1 cacheDir w = ((gd, nil_error), w1) ->
  valid repo b2 f2 = true ->
  fs w2 !! gd = fs w1 !! gd ->
  fs_fault w2 !! gd = fs_fault w1 !! gd ->
  preflightAndInit repo b2 f2 cacheDir w2
  = ((gd, nil_error), emit (EvStat gd) w2).
Proof.
intros H1 Hv Hfs Hflt.
destruct (preflight_success_inv _ _ _ _ _ _ _ H1) as [_ ->].
destruct (preflight_effects repo b1 f1 cacheDir w)
  as (pre & _ & _ & _ & _ & Hff & _ & _ & _ & _ & Hdir).
rewrite H1 in Hff, Hdir. cbn [fst snd] in Hff, Hdir.
destruct Hdir as ([x Hx] & Hf); [left; reflexivity|].
apply (preflight_existing repo b2 f2 cacheDir w2 x Hv).
- rewrite Hfs. exact Hx.
- rewrite Hflt, Hff. exact Hf.
Qed.

Lemma cons_neq_self {A} (a : A) (l : list A) : l <> a :: l.
Proof.
intros H. apply (f_equal (@List.length A)) in H. cbn in H. lia.
Qed.

(** X6. A failed init is not repeated. When [preflightAndInit] fails after
    it ran the init, the directory it made is left behind; the next call
    for the same repository finds it and returns it as a workspace that
    is ready, without running the init again. *)
Theorem failed_init_is_not_repeated repo cacheDir b1 f1 b2 f2
    (w w1 : World) d e :
  let gd := Path.Join [cacheDir; cacheKey repo] in
  preflightAndInit repo b1 f1 cacheDir w = ((d, Some e), w1) ->
  execs (trace w1) = init_argv gd :: execs (trace w) ->
  valid repo b2 f2 = true ->
  (exists x, fs w1 !! gd = Some x)
  /\ preflightAndInit repo b2 f2 cacheDir w1
     = ((gd, nil_error), emit (EvStat gd) w1).
Proof.
intros gd H1 Hex Hv.
destruct (preflight_effects repo b1 f1 cacheDir w)
  as (pre & [Hr _] & Hpre & _ & _ & Hff & _ & _ & _ & _ & Hdir).
fold gd in Hpre, Hdir.
rewrite H1 in Hr, Hff, Hdir. cbn [fst snd] in Hr, Hff, Hdir.
destruct Hpre as [->| ->].
{ cbn in Hr. rewrite Hr in Hex. destruct (cons_neq_self _ _ Hex). }
destruct Hdir as ([x Hx] & Hf); [right; reflexivity|].
split; [exists x; exact Hx|].
apply (preflight_existing repo b2 f2 cacheDir w1 x Hv Hx).
rewrite Hff. exact Hf.
Qed.

(** ** The whole request *)

(** [FetchLatest], phase by phase. *)
Lemma FetchLatest_unfold repo branch commit tree format cacheDir outputDir
    out (w : World) :
  FetchLatest repo branch commit tree format cacheDir outputDir out w
  = match preflightAndInit repo branch format cacheDir w with
    | ((_, Some e), w1) => (Some e, w1)
    | ((gd, None), w1) =>
        if (String.length commit =? 0)%nat then
          match getHeadCommit gd repo branch w1 with
          | ((_, Some e), w2) => (Some e, w2)
          | ((c, None), w2) =>
              FetchLatest_sink gd repo branch c tree format true outputDir
                out w2
          end
        else
          FetchLatest_sink gd repo branch commit tree format false outputDir
            out w1
    end.
Proof.
unfold FetchLatest. rewrite run_bind.
destruct (preflightAndInit repo branch format cacheDir w)
  as [[gd [e|]] w1]; cbn [fst snd]; [reflexivity|].
destruct (String.length commit =? 0)%nat; [|reflexivity].
rewrite !run_bind.
destruct (getHeadCommit gd repo branch w1) as [[c [e|]] w2]; reflexivity.
Qed.

Lemma getHeadCommit_quiet gd repo branch (w : World) :
  let run := getHeadCommit gd repo branch w in
  sinks run.2 = sinks w
  /\ os_Stdout run.2 = os_Stdout w
  /\ creates (trace run.2) = creates (trace w).
Proof.
cbn zeta. pose proof (getHeadCommit_cases gd repo branch w) as H.
cbn zeta in H.
destruct (run_err (outcome (fetch_argv gd repo branch) w)) as [e|].
- rewrite H. repeat split.
- destruct H as [-> _]. repeat split.
Qed.

(** X7. When the head cannot be resolved, no sink is opened. With no commit
    given and [getHeadCommit] failing, [FetchLatest] returns that error
    at once: no output file is created, no path is announced on standard
    output, and the caller's stream and the file tree are as the
    workspace check left them. *)
Theorem head_failure_opens_no_sink repo branch tree format cacheDir
    outputDir out (w w1 w2 : World) gd c e :
  preflightAndInit repo branch format cacheDir w = ((gd, nil_error), w1) ->
  getHeadCommit gd repo branch w1 = ((c, Some e), w2) ->
  FetchLatest repo branch "" tree format cacheDir outputDir out w
  = (Some e, w2)
  /\ fs w2 = fs w1
  /\ out_buf w2 = out_buf w1
  /\ os_Stdout w2 = os_Stdout w1
  /\ creates (trace w2) = creates (trace w1).
Proof.
intros H1 H2. rewrite FetchLatest_unfold, H1. cbn [String.length Nat.eqb].
rewrite H2. split; [reflexivity|].
destruct (getHeadCommit_quiet gd repo branch w1) as (Hs & Ho & Hc).
rewrite H2 in Hs, Ho, Hc. cbn [fst snd] in Hs, Ho, Hc.
unfold sinks in Hs. injection Hs as Hf Hb _ _. auto.
Qed.

(** What a request served into the caller's stream leaves behind. *)
Lemma FetchLatest_stream_effects repo branch commit tree format cacheDir
    (w : World) :
  let run :=
    FetchLatest repo branch commit tree format cacheDir "" callerStream w in
  (forall p x, fs w !! p = Some x -> fs run.2 !! p = Some x)
  /\ (forall p, fs run.2 !! p = fs w !! p \/ fs run.2 !! p = Some Dir)
  /\ os_Stdout run.2 = os_Stdout w
  /\ creates (trace run.2) = creates (trace w)
  /\ exists bytes, out_buf run.2 = out_buf w ++ bytes.
Proof.
intros run. unfold run. rewrite FetchLatest_unfold.
destruct (preflight_effects repo branch format cacheDir w)
  as (pre & _ & _ & Hmono & Hnew & _ & Hso & Hob & _ & Hcr & _).
destruct (preflightAndInit repo branch format cacheDir w)
  as [[gd [e|]] w1]; cbn [fst snd] in *.
{ split; [exact Hmono|]. split; [exact Hnew|]. split; [exact Hso|].
  split; [exact Hcr|]. exists []. rewrite app_nil_r. exact Hob. }
assert (Hsink : forall c hf (w2 : World),
  fs w2 = fs w1 -> out_buf w2 = out_buf w1 -> os_Stdout w2 = os_Stdout w1 ->
  creates (trace w2) = creates (trace w1) ->
  let r := FetchLatest_sink gd repo branch c tree format hf "" callerStream
             w2 in
  (forall p x, fs w !! p = Some x -> fs r.2 !! p = Some x)
  /\ (forall p, fs r.2 !! p = fs w !! p \/ fs r.2 !! p = Some Dir)
  /\ os_Stdout r.2 = os_Stdout w
  /\ creates (trace r.2) = creates (trace w)
  /\ exists bytes, out_buf r.2 = out_buf w ++ bytes).
{ intros c hf w2 Hf2 Hb2 Hs2 Hc2. cbn zeta.
  unfold FetchLatest_sink. cbn [String.length Nat.eqb]. cbn zeta.
  destruct (FetchLatest_wrap gd repo branch c tree format hf callerStream w2)
    as (bytes & plain & Ho & Os & Cr & _).
  unfold outputs in Ho. injection Ho as Hf Hb _.
  rewrite Hf, Os, Cr, Hb. cbn. rewrite Hf2, Hb2, Hs2, Hc2, Hso, Hcr, Hob.
  split; [exact Hmono|]. split; [exact Hnew|]. split; [reflexivity|].
  split; [reflexivity|]. exists bytes. reflexivity. }
destruct (String.length commit =? 0)%nat.
- destruct (getHeadCommit_quiet gd repo branch w1) as (Hs & Ho & Hc).
  destruct (getHeadCommit gd repo branch w1) as [[c [e|]] w2];
    cbn [fst snd] in *; unfold sinks in Hs; injection Hs as Hf Hb _ _.
  + rewrite Hf, Ho, Hc, Hb.
    split; [exact Hmono|]. split; [exact Hnew|]. split; [exact Hso|].
    split; [exact Hcr|]. exists []. rewrite app_nil_r. exact Hob.
  + apply Hsink; assumption.
- apply Hsink; reflexivity.
Qed.

(** X8. Serving into a stream touches no file. With an empty output
    directory, whatever the request and however it ends, [FetchLatest]
    creates no file and writes nothing to standard output; every entry of
    the file tree stays as it was, and a path that is new is a directory
    (of the workspace); the caller's stream keeps what it held and only
    grows. *)
Theorem serving_touches_no_file repo branch commit tree format cacheDir
    (w : World) :
  let run :=
    FetchLatest repo branch commit tree format cacheDir "" callerStream w in
  (forall p x, fs w !! p = Some x -> fs run.2 !! p = Some x)
  /\ (forall p, fs run.2 !! p = fs w !! p \/ fs run.2 !! p = Some Dir)
  /\ os_Stdout run.2 = os_Stdout w
  /\ creates (trace run.2) = creates (trace w)
  /\ exists bytes, out_buf run.2 = out_buf w ++ bytes.
Proof.
exact (FetchLatest_stream_effects repo branch commit tree format cacheDir w).
Qed.

(** X9. A cache hit needs no network. With a commit given that the mirror
    holds (the archive subprocess starts, exits with status 0 and leaves
    a well-formed archive), an empty output directory and a stream that
    takes all it is given, [FetchLatest] succeeds after the workspace
    check with that one subprocess: no fetch runs. The stream receives
    the archive with every modification time reset and the trailer, as
    it is for tar and compressed for tgz. *)
Theorem cache_hit_needs_no_network repo branch commit tree format cacheDir
    (w w1 : World) gd :
  let A := archive_argv gd commit tree in
  let r := outcome A w1 in
  let s := tar_decode (proc_stdout r) in
  preflightAndInit repo branch format cacheDir w = ((gd, nil_error), w1) ->
  commit <> ""%string ->
  start_err r = nil_error -> exit_err r = nil_error ->
  clean s -> ending s = io_EOF ->
  out_room w1 = None ->
  let run :=
    FetchLatest repo branch commit tree format cacheDir "" callerStream w in
  run.1 = nil_error
  /\ execs (trace run.2) = A :: execs (trace w1)
  /\ out_buf run.2 = out_buf w1 ++ packed format (reencode s ++ trailer)
  /\ fs run.2 = fs w1.
Proof.
intros A r s H1 Hc Hs Hx Hcl Hend Hroom run. unfold run.
rewrite FetchLatest_unfold, H1.
assert (Hlen : (String.length commit =? 0)%nat = false)
  by (destruct commit; [congruence|reflexivity]).
rewrite Hlen. unfold FetchLatest_sink. cbn [String.length Nat.eqb].
cbn zeta. unfold packed. destruct (String.eqb format "tgz").
- unfold gzip_NewWriter, gzip_Close, defer, FetchLatest_send. io_unfold.
  destruct (sendDownstream_clean gd commit tree (gzipWriter callerStream)
              (with_gz [] w1) eq_refl Hs Hcl) as [g E].
  change (outcome (archive_argv gd commit tree) (with_gz [] w1)) with r in E.
  fold s in E. rewrite Hend, Hx in E.
  destruct (decide (io_EOF = io_EOF)); [|congruence].
  rewrite E. cbn [fst snd]. unfold id. rewrite Write_spec. cbn [fst snd].
  assert (Hm : sink_mode callerStream
                 (stepped (gzipWriter callerStream) (reencode s ++ trailer) g
                    (launched (archive_argv gd commit tree) (with_gz [] w1)))
               = Open).
  { unfold sink_mode. cbn. rewrite Hroom. reflexivity. }
  rewrite Hm. cbn. rewrite ?Hroom. repeat split.
- unfold FetchLatest_send. io_unfold.
  destruct (sendDownstream_clean gd commit tree callerStream w1) as [g E];
    [unfold sink_mode; rewrite Hroom; reflexivity|exact Hs|exact Hcl|].
  fold A r s in E. rewrite Hend, Hx in E.
  destruct (decide (io_EOF = io_EOF)); [|congruence].
  fold A. rewrite E. cbn. rewrite ?Hroom. repeat split.
Qed.

(** ** Joined paths *)

Lemma split_nonempty s : Path.split s <> [].
Proof.
destruct s as [|c r]; cbn; [discriminate|].
destruct (Ascii.eqb c "/"); [discriminate|].
destruct (Path.split r); discriminate.
Qed.

Lemma append_String c (a b : string) :
  (String c a ++ b = String c (a ++ b))%string.
Proof. reflexivity. Qed.

Lemma append_empty (b : string) : ("" ++ b = b)%string.
Proof. reflexivity. Qed.

Lemma split_app a b :
  Path.split (a ++ String "/" b) = Path.split a ++ Path.split b.
Proof.
induction a as [|c a IH].
- reflexivity.
- rewrite append_String. cbn [Path.split app]. rewrite IH. destruct (Ascii.eqb c "/"); [reflexivity|].
  destruct (Path.split a) eqn:E; [destruct (split_nonempty _ E)|].
  reflexivity.
Qed.

Lemma split_plain s : no_slash s = true -> Path.split s = [s].
Proof.
unfold no_slash. induction s as [|c s IH]; cbn; [reflexivity|].
rewrite andb_true_iff, negb_true_iff. intros [-> H].
rewrite (IH H). reflexivity.
Qed.

Lemma split_not_slash s : Forall (fun c => c <> "/"%string) (Path.split s).
Proof.
induction s as [|c s IH]; cbn.
- constructor; [discriminate|constructor].
- destruct (Ascii.eqb c "/") eqn:E.
  + constructor; [discriminate|exact IH].
  + apply Ascii.eqb_neq in E. destruct (Path.split s) as [|hd tl].
    * constructor; [|constructor]. congruence.
    * inversion IH; subst. constructor; [|assumption]. congruence.
Qed.

Lemma clean_step_kept rt out c :
  c <> "/"%string -> Forall kept out -> Forall kept (Path.clean_step rt out c).
Proof.
intros Hc Ho. unfold Path.clean_step.
destruct (String.eqb c "") eqn:E1; [exact Ho|].
destruct (String.eqb c ".") eqn:E2; [exact Ho|].
destruct (String.eqb c "..") eqn:E3.
- destruct out as [|top below].
  + destruct rt; [constructor|].
    constructor; [|constructor]. repeat split; discriminate.
  + destruct (String.eqb top "..").
    * constructor; [repeat split; discriminate|exact Ho].
    * inversion Ho; assumption.
- constructor; [|exact Ho].
  apply String.eqb_neq in E1, E2. repeat split; assumption.
Qed.

Lemma fold_kept rt l : Forall (fun c => c <> "/"%string) l ->
  forall out, Forall kept out ->
  Forall kept (fold_left (Path.clean_step rt) l out).
Proof.
induction 1 as [|c l Hc Hl IH]; intros out Ho; cbn; [exact Ho|].
apply IH, clean_step_kept; assumption.
Qed.

Lemma append_assoc' (a b c : string) :
  ((a ++ b) ++ c = a ++ b ++ c)%string.
Proof.
induction a as [|x a IH]; [reflexivity|].
rewrite !append_String, IH. reflexivity.
Qed.

Lemma concat_snoc sep l x :
  String.concat sep (l ++ [x])
  = match l with
    | [] => x
    | _ => (String.concat sep l ++ sep ++ x)%string
    end.
Proof.
induction l as [|a l IH]; [reflexivity|].
cbn [app]. destruct l as [|b l].
- reflexivity.
- cbn [app] in *. cbn [String.concat] in *. rewrite IH.
  rewrite !append_assoc'. reflexivity.
Qed.

Lemma append_slash_nonempty (c y : string) :
  (c ++ String "/" y)%string <> ""%string.
Proof.
destruct c; [rewrite append_empty|rewrite append_String]; discriminate.
Qed.

Lemma concat_kept l : l <> [] -> Forall kept l ->
  String.concat "/" l <> ""%string
  /\ String.concat "/" l <> "."%string
  /\ String.concat "/" l <> "/"%string.
Proof.
intros Hl Hk. destruct l as [|c rest]; [congruence|].
inversion Hk as [|? ? (H1 & H2 & H3) _]; subst.
destruct rest as [|d rest]; [cbn; auto|].
cbn [String.concat]. destruct c as [|a c]; [congruence|].
rewrite append_String, (append_String "/" ""), append_empty.
split; [discriminate|].
split; intros H; injection H as _ H; exact (append_slash_nonempty _ _ H).
Qed.

Lemma plain_name_inv name : plain_name name = true ->
  String.eqb name "" = false /\ String.eqb name "." = false
  /\ String.eqb name ".." = false /\ no_slash name = true.
Proof.
unfold plain_name. rewrite !andb_true_iff, !negb_true_iff. tauto.
Qed.

Lemma rooted_plain name : plain_name name = true -> Path.rooted name = false.
Proof.
intros H. apply plain_name_inv in H as (H1 & _ & _ & H4).
destruct name as [|c name]; [reflexivity|].
unfold no_slash in H4. cbn in H4.
rewrite andb_true_iff, negb_true_iff in H4. exact (proj1 H4).
Qed.

Lemma clean_step_plain rt out name :
  plain_name name = true -> Path.clean_step rt out name = name :: out.
Proof.
intros H. apply plain_name_inv in H as (H1 & H2 & H3 & _).
unfold Path.clean_step. rewrite H1, H2, H3. reflexivity.
Qed.

Lemma Clean_plain name : plain_name name = true -> Path.Clean name = name.
Proof.
intros H. unfold Path.Clean.
rewrite (rooted_plain _ H).
pose proof (plain_name_inv _ H) as (H1 & _ & _ & H4).
rewrite H1, (split_plain _ H4). cbn [fold_left].
rewrite (clean_step_plain _ _ _ H). cbn. rewrite H1. reflexivity.
Qed.

Lemma filter_bool {A} (f : A -> bool) (l : list A) :
  filter (fun x => f x) l = List.filter f l.
Proof.
induction l as [|a l IH]; [reflexivity|].
rewrite filter_cons. cbn [List.filter]. rewrite IH.
destruct (f a) eqn:E; destruct (decide _) as [d|d]; try reflexivity;
  exfalso; [apply d; exact I|exact d].
Qed.

Lemma rooted_append c (dir x : string) :
  Path.rooted (String c dir ++ x) = Path.rooted (String c dir).
Proof. reflexivity. Qed.

(** Joining a directory and a plain name gives the entry of that name
    in the cleaned directory. *)
Lemma Join_child dir name :
  plain_name name = true ->
  Path.Join [dir; name] = child (Path.Clean dir) name.
Proof.
intros H. pose proof (plain_name_inv _ H) as (H1 & H2 & H3 & H4).
unfold Path.Join. rewrite filter_bool. cbn [List.filter]. rewrite H1.
cbn [negb].
destruct dir as [|c dir].
{ cbn. rewrite (Clean_plain _ H). reflexivity. }
cbn [String.eqb negb String.concat].
rewrite (append_String "/" ""), append_empty.
set (d := String c dir).
unfold Path.Clean at 1.
rewrite split_app, (split_plain _ H4), fold_left_app. cbn [fold_left].
rewrite (clean_step_plain _ _ _ H). cbn zeta. cbn [rev].
change (Path.rooted (d ++ String "/" name)) with (Path.rooted d).
change (d ++ String "/" name =? "")%string with false. cbn iota.
rewrite concat_snoc.
unfold Path.Clean. change (d =? "")%string with false. cbn iota zeta.
pose proof (fold_kept (Path.rooted d) (Path.split d) (split_not_slash d) []
              (List.Forall_nil _)) as Hk.
apply List.Forall_rev in Hk.
destruct (rev (fold_left (Path.clean_step (Path.rooted d)) (Path.split d) []))
  as [|x l] eqn:Er.
{ cbn [String.concat]. rewrite H1.
  destruct (Path.rooted d); reflexivity. }
destruct (concat_kept (x :: l)) as (K1 & K2 & K3); [discriminate|exact Hk|].
set (body := String.concat "/" (x :: l)) in *.
rewrite (append_String "/" ""), append_empty.
apply String.eqb_neq in K1, K2, K3. clearbody body.
destruct (Path.rooted d).
- unfold child. cbn. rewrite K1. reflexivity.
- rewrite K1. unfold child. rewrite K3, K2.
  destruct (body ++ String "/" name)%string eqn:Eb;
    [destruct (append_slash_nonempty _ _ Eb)|].
  reflexivity.
Qed.

Lemma length_append (a b : string) :
  String.length (a ++ b) = (String.length a + String.length b)%nat.
Proof.
induction a as [|c a IH]; [reflexivity|].
rewrite append_String. cbn [String.length]. rewrite IH. reflexivity.
Qed.

Lemma no_slash_append (a b : string) :
  no_slash (a ++ b) = no_slash a && no_slash b.
Proof.
unfold no_slash. induction a as [|c a IH]; [reflexivity|].
rewrite append_String. cbn. rewrite IH, andb_assoc. reflexivity.
Qed.

Lemma long_is_plain (s : string) :
  (3 <= String.length s)%nat -> no_slash s = true -> plain_name s = true.
Proof.
intros Hl Hn. unfold plain_name. rewrite Hn.
destruct s as [|a [|b [|c s]]]; cbn in Hl; try lia.
cbn. destruct (Ascii.eqb a "."); [|reflexivity].
destruct (Ascii.eqb b "."); reflexivity.
Qed.

Lemma cacheKey_plain repo : plain_name (cacheKey repo) = true.
Proof.
apply long_is_plain.
- unfold cacheKey. rewrite EncodeToString_length, Sum256_length. lia.
- unfold no_slash, cacheKey. apply forallb_forall. intros c Hc.
  pose proof (EncodeToString_lower_hex
                (SHA256.Sum256 (list_byte_of_string repo))) as Hh.
  rewrite List.Forall_forall in Hh. apply negb_true_iff, Ascii.eqb_neq.
  apply lower_hex_not_slash, Hh, Hc.
Qed.

(** X10. The workspace is an entry of the cache directory. Whatever the
    repository string, the directory [preflightAndInit] returns is the
    entry of the cleaned cache directory whose name is the cache key, a
    single path component: the request cannot steer the workspace out of
    the cache directory. *)
Theorem workspace_is_entry_of_cacheDir repo branch format cacheDir
    (w w1 : World) gd :
  preflightAndInit repo branch format cacheDir w = ((gd, nil_error), w1) ->
  gd = child (Path.Clean cacheDir) (cacheKey repo)
  /\ plain_name (cacheKey repo) = true.
Proof.
intros H. destruct (preflight_success_inv _ _ _ _ _ _ _ H) as [_ ->].
split; [apply Join_child|]; apply cacheKey_plain.
Qed.

(** X11. The output file is an entry of the output directory when the commit
    holds no slash. With an output directory and such a commit, the one
    file [FetchLatest] creates, and announces on standard output, is the
    entry [commit.format] of the cleaned output directory. *)
Theorem output_file_is_entry_of_outputDir gd repo branch commit tree format
    haveFetched outputDir out (w : World) :
  let name := (commit ++ "." ++ format)%string in
  let fpath := child (Path.Clean outputDir) name in
  let run :=
    FetchLatest_sink gd repo branch commit tree format haveFetched outputDir
      out w in
  outputDir <> ""%string ->
  no_slash commit = true ->
  format = "tar"%string \/ format = "tgz"%string ->
  plain_name name = true
  /\ creates (trace run.2) = fpath :: creates (trace w)
  /\ os_Stdout run.2 = os_Stdout w ++ list_byte_of_string fpath.
Proof.
intros name fpath run Hd Hc Hf.
assert (Hp : plain_name name = true).
{ apply long_is_plain.
  - unfold name. rewrite !length_append.
    destruct Hf as [-> | ->]; cbn; lia.
  - unfold name. rewrite no_slash_append, Hc.
    destruct Hf as [-> | ->]; reflexivity. }
split; [exact Hp|].
assert (Hl : (String.length outputDir =? 0)%nat = false)
  by (destruct outputDir; [congruence|reflexivity]).
unfold run. rewrite FetchLatest_sink_file by exact Hl. cbn zeta.
fold name. rewrite (Join_child _ _ Hp). fold fpath.
destruct (os_Create fpath w).1.2 as [ec|]; [split; reflexivity|].
match goal with
| |- context [with_fs ?f ?w0] => set (wc := with_fs f w0)
end.
destruct (FetchLatest_wrap gd repo branch commit tree format haveFetched
            (osFile fpath) wc) as (bytes & plain & _ & Os & Cr & _).
rewrite Os, Cr. split; reflexivity.
Qed.

(** ** The handler *)

(** X12. The handler reports every failure as a 400, after the fact. When
    [fetchLatest] succeeds the handler adds nothing. When it fails, with
    whatever error and at whatever stage, the handler logs the error
    text and calls [http.Error] with that text and status 400, once; the
    text and a newline are appended to the response body after whatever
    the attempts already wrote there. In no case is a file created or
    changed or anything written to standard output. *)
Theorem handler_reports_failures (Error : err -> string) cacheDir
    (r : Request) (w : World) :
  let inner :=
    FetchLatest (FormValue r "repo") (FormValue r "branch")
      (FormValue r "commit") (FormValue r "tree") (FormValue r "format")
      cacheDir "" callerStream w in
  let run := makeHandleFetch Error cacheDir callerStream r w in
  (match inner.1 with
   | None => run = (None, inner.2)
   | Some e =>
       run.1 = Some (Error e, 400)
       /\ log_lines run.2
          = log_lines inner.2 ++ [("Error: " ++ Error e)%string]
       /\ out_buf run.2
          = out_buf inner.2
            ++ accepted (sink_mode callerStream inner.2)
                 (list_byte_of_string (Error e ++ String "010" ""))
       /\ trace run.2 = trace inner.2
   end)
  /\ (forall p x, fs w !! p = Some x -> fs run.2 !! p = Some x)
  /\ (forall p, fs run.2 !! p = fs w !! p \/ fs run.2 !! p = Some Dir)
  /\ os_Stdout run.2 = os_Stdout w
  /\ creates (trace run.2) = creates (trace w)
  /\ exists bytes, out_buf run.2 = out_buf w ++ bytes.
Proof.
intros inner run.
destruct (FetchLatest_stream_effects (FormValue r "repo")
            (FormValue r "branch") (FormValue r "commit")
            (FormValue r "tree") (FormValue r "format") cacheDir w)
  as (Hmono & Hnew & Hso & Hcr & bytes & Hob).
fold inner in Hmono, Hnew, Hso, Hcr, Hob.
unfold run, makeHandleFetch. rewrite run_bind. fold inner.
destruct inner as [[e|] wi]; cbn [fst snd] in *.
- unfold http_Error, log_Println. rewrite !run_bind. unfold modify.
  cbn [fst snd]. rewrite Write_spec. cbn [fst snd].
  unfold mret, io_ret, ret. cbn [fst snd].
  set (msg := list_byte_of_string (Error e ++ String "010" "")).
  set (wl := with_log _ wi).
  change (sink_mode callerStream wl) with (sink_mode callerStream wi).
  set (taken := accepted (sink_mode callerStream wi) msg).
  split.
  { split; [reflexivity|]. split; [reflexivity|].
    split; reflexivity. }
  split; [exact Hmono|]. split; [exact Hnew|]. split; [exact Hso|].
  split; [exact Hcr|]. exists (bytes ++ taken).
  cbn. rewrite Hob, app_assoc. reflexivity.
- split; [reflexivity|]. split; [exact Hmono|]. split; [exact Hnew|].
  split; [exact Hso|]. split; [exact Hcr|]. exists bytes. exact Hob.
Qed.

(** X13. The sink is append-only. Whatever path lines 184-200 take and
    however the sink stands, what the sink held before is still there,
    in front of what was added; standard output is not written to, and
    unless the sink is a file the file tree is not changed; when it is a
    file, no other path changes. *)
Theorem sink_is_append_only gd repo branch commit tree haveFetched out
    (w : World) :
  let run := FetchLatest_send gd repo branch commit tree haveFetched out w in
  (exists added, content out run.2 = content out w ++ added)
  /\ os_Stdout run.2 = os_Stdout w
  /\ (forall q, out <> osFile q -> fs run.2 !! q = fs w !! q).
Proof.
intros run.
destruct (FetchLatest_send_summary gd repo branch commit tree haveFetched
            out w) as (bs & S & O & _).
fold run in S, O. split; [|split; [exact O|]].
- rewrite (content_sinks _ _ _ S).
  destruct (decide (sink_mode out w = Closed)) as [Hc|Hc].
  + exists []. rewrite app_nil_r, <- stepped_no_ghost, content_stepped.
    destruct (decide _); [reflexivity|contradiction].
  + exists bs. apply content_absorb. exact Hc.
- intros q Hq. unfold sinks in S. injection S as Hf _ _ _. rewrite Hf.
  unfold absorb. destruct out as [|p|u]; try reflexivity.
  destruct (fs w !! p) as [[|d]|] eqn:Ep; try reflexivity.
  cbn. apply lookup_insert_ne. congruence.
Qed.

(** ** What a nil result guarantees, whatever the sink *)

Lemma runs_tw_Flush_any out tw :
  tw_w tw = out ->
  runs out false (tw_Flush tw) (tw_Flush tw)
    (fun r bs g =>
       g = [] /\ tw_w r.2 = out
       /\ (healthy tw -> exists tl, Tar.zeroBlock (tw_pad tw) = bs ++ tl)
       /\ (r.1 = nil_error ->
           bs = Tar.zeroBlock (tw_pad tw)
           /\ r.2 = mkTW out (tw_nb tw) 0 None)).
Proof.
intros Hout. subst out. unfold tw_Flush.
destruct (tw_err tw) as [e|] eqn:Ee.
{ apply runs_ret. cbn. split; [reflexivity|]. split; [reflexivity|].
  split; [|discriminate]. intros [He _]. congruence. }
destruct (0 <? tw_nb tw) eqn:Enb.
{ apply runs_ret. cbn. split; [reflexivity|]. split; [reflexivity|].
  split; [|discriminate]. intros [_ Hn]. apply Z.ltb_lt in Enb. lia. }
eapply runs_bind; [apply runs_Write|].
intros [n e] b1 g1 (-> & _ & [tl Htl] & Hall & _). cbn in Hall.
destruct e as [e|]; apply runs_ret; cbn; rewrite app_nil_r.
- split; [reflexivity|]. split; [reflexivity|]. split; [|discriminate].
  intros _. exists tl. exact Htl.
- split; [reflexivity|]. split; [reflexivity|].
  split; [intros _; exists tl; exact Htl|].
  intros _. split; [exact (Hall eq_refl)|reflexivity].
Qed.

(** [tarOut.Close()] on a writer with nothing pending writes a prefix of
    the padding it owes and the trailer. *)
Lemma runs_tw_Close_any out tw :
  tw_w tw = out ->
  runs out false (tw_Close tw) (tw_Close tw)
    (fun r bs g =>
       g = []
       /\ (healthy tw ->
           exists lost, Tar.zeroBlock (tw_pad tw) ++ trailer = bs ++ lost)).
Proof.
intros Hout. subst out. unfold tw_Close.
destruct (tw_err tw) as [e|] eqn:Ee.
{ apply runs_ret. split; [reflexivity|]. intros [He _]. congruence. }
eapply runs_bind; [apply runs_tw_Flush_any; reflexivity|].
intros [e tw1] b1 g1 (-> & Hw1 & Hpre & Hok). cbn in Hw1, Hok.
destruct e as [e|].
{ apply runs_ret. cbn. rewrite app_nil_r. split; [reflexivity|].
  intros Hh. destruct (Hpre Hh) as [tl Htl].
  exists (tl ++ trailer). rewrite Htl, <- app_assoc. reflexivity. }
destruct (Hok eq_refl) as (-> & ->). cbn.
eapply runs_bind; [apply runs_Write|].
intros [n e] b2 g2 (-> & _ & [tl2 Htl2] & Hall2 & _). cbn in Hall2.
destruct e as [e|].
{ apply runs_ret. cbn. rewrite app_nil_r. split; [reflexivity|].
  intros _. exists (tl2 ++ Tar.zeroBlock 512). unfold trailer.
  rewrite Htl2, <- !app_assoc. reflexivity. }
rewrite (Hall2 eq_refl).
eapply runs_bind; [apply runs_Write|].
intros [n3 e3] b3 g3 (-> & _ & [tl3 Htl3] & _). cbn.
apply runs_ret. cbn. rewrite app_nil_r. split; [reflexivity|].
intros _. exists tl3. unfold trailer. rewrite Htl3, <- !app_assoc.
reflexivity.
Qed.

(** When the loop returns nil over a well-formed archive, every write
    went through in full. *)
Lemma runs_loop_success out cmd s :
  forall tw, tw_w tw = out ->
  runs out false (sendDownstream_loop cmd s tw) (sendDownstream_loop cmd s tw)
    (fun r bs g =>
       tw_w r.2 = out
       /\ (r.1 = nil_error -> healthy tw -> clean s ->
           healthy r.2
           /\ bs ++ Tar.zeroBlock (tw_pad r.2)
              = Tar.zeroBlock (tw_pad tw) ++ reencode s)).
Proof.
induction s as [e|h body rest IH]; intros tw Hout.
- cbn [sendDownstream_loop]. rewrite Cmd_Wait_eq.
  destruct (decide (e = io_EOF)) as [->|Hne].
  + eapply runs_bind;
      [apply (runs_ret _ _ _ (fun r b g => b = [] /\ g = [])); auto|].
    intros r b1 g1 (-> & ->). apply runs_ret. cbn.
    split; [exact Hout|]. intros _ Hh _. rewrite app_nil_r. auto.
  + apply runs_ret. cbn. split; [exact Hout|]. discriminate.
- cbn [sendDownstream_loop]. change (Tar.time_Unix 0 0) with epoch.
  change (if Tar.isHeaderOnlyType (Tar.Typeflag (Tar.set_ModTime epoch h))
          then 0 else Tar.Size (Tar.set_ModTime epoch h))
    with (data_size h).
  change (Tar.Size (Tar.set_ModTime epoch h)) with (Tar.Size h).
  eapply runs_bind; [apply runs_tw_WriteHeader, Hout|].
  intros [e tw1] b1 g1 (-> & Hw1 & Hok1 & _). cbn in Hw1, Hok1. cbn.
  destruct e as [e|].
  { apply runs_ret. cbn. split; [exact Hw1|]. discriminate. }
  destruct (Hok1 eq_refl) as (Hh0 & blk & Hblk & -> & ->). clear Hok1.
  eapply runs_bind; [apply runs_io_CopyN; reflexivity|].
  intros [[written e] tw2] b2 g2
    (Hw2 & nw & -> & Hnw & Hrange & Hshort & Hok2 & _).
  cbn in Hw2, Hshort, Hok2. cbn.
  change (data_size (Tar.set_ModTime epoch h)) with (data_size h) in *.
  destruct e as [e|].
  { apply runs_ret. cbn. split; [exact Hw2|]. discriminate. }
  destruct (Hok2 eq_refl) as (Hcase & Hb2 & He2 & Hnb2 & Hpad2).
  cbn in He2, Hnb2, Hpad2.
  destruct (Z.eqb_spec written (Tar.Size h)) as [Heq|Hneq]; cbn.
  + eapply runs_conseq; [apply (IH tw2 Hw2)|].
    intros [e' tw'] b3 g3 (Hw3 & Hsucc). cbn in *.
    split; [exact Hw3|].
    intros He' Hhtw (Hblk' & Hsz & Hds & Hcl).
    assert (Hnweq : nw = Tar.Size h) by lia.
    assert (Hh2 : healthy tw2).
    { split; [exact He2|]. rewrite Hnb2, Hds. lia. }
    destruct (Hsucc He' Hh2 Hcl) as (Hh' & Hbytes).
    split; [exact Hh'|].
    rewrite Hblk, <- !app_assoc. do 2 f_equal. rewrite Hb2, Hnweq. f_equal.
    rewrite Hbytes, Hpad2, Hds. reflexivity.
  + apply runs_ret. cbn. split; [exact Hw2|].
    intros _ _ (_ & Hsz & _). exfalso. lia.
Qed.

(** An attempt that returns nil over a well-formed archive. *)
Lemma sendDownstream_nil gd commit tree out (w : World) :
  let A := archive_argv gd commit tree in
  let r := outcome A w in
  let s := tar_decode (proc_stdout r) in
  start_err r = nil_error -> clean s ->
  (sendDownstream gd commit tree out w).1 = nil_error ->
  exists data pad tail lost g,
    sendDownstream gd commit tree out w
    = (nil_error, stepped out (data ++ tail) g (launched A w))
    /\ reencode s = data ++ Tar.zeroBlock pad
    /\ Tar.zeroBlock pad ++ trailer = tail ++ lost.
Proof.
intros A r s Hs Hc. rewrite sendDownstream_unfold. fold A r s. rewrite Hs.
set (cmd := mkCmd A true (Some r)).
assert (Hnew : healthy (tar_NewWriter out)) by (split; cbn; [reflexivity|lia]).
assert (R : runs out false (archive_body cmd s out) (archive_body cmd s out)
              (fun (e : error) bs g =>
                 e = nil_error ->
                 exists data pad tail lost,
                   bs = data ++ tail
                   /\ reencode s = data ++ Tar.zeroBlock pad
                   /\ Tar.zeroBlock pad ++ trailer = tail ++ lost)).
{ unfold archive_body.
  eapply runs_bind;
    [apply (runs_loop_success out cmd s (tar_NewWriter out)); reflexivity|].
  intros [e tw] b1 g1 (Hw & Hsucc). cbn in Hw, Hsucc.
  eapply runs_bind; [apply runs_tw_Close_any, Hw|].
  intros e2 b2 g2 (-> & Hcl). apply runs_ret. cbn. intros ->.
  destruct (Hsucc eq_refl Hnew Hc) as (Hh & Hbytes).
  destruct (Hcl Hh) as [lost Hlost].
  exists b1, (tw_pad tw), b2, lost. rewrite app_nil_r.
  split; [reflexivity|]. split; [|exact Hlost].
  rewrite Hbytes. reflexivity. }
destruct (R (launched A w) (launched A w)) as (e & bs & g & E & _ & HQ);
  [reflexivity|discriminate|].
rewrite E. cbn [fst]. intros ->.
destruct (HQ eq_refl) as (data & pad & tail & lost & -> & H1 & H2).
exists data, pad, tail, lost, g. auto.
Qed.

(** X14. A nil result means the archive got through, up to its very end.
    For a well-formed archive and any sink, open or not, when
    [sendDownstream] returns nil every header and every data byte reached
    the sink, in order. The error of the deferred [tarOut.Close()] is
    dropped, so all that can be missing is a tail of what it writes: the
    zero padding after the last entry and the two-block trailer. *)
Theorem nil_result_loses_at_most_the_trailer gd commit tree out (w : World) :
  let A := archive_argv gd commit tree in
  let r := outcome A w in
  let s := tar_decode (proc_stdout r) in
  let run := sendDownstream gd commit tree out w in
  start_err r = nil_error -> clean s -> run.1 = nil_error ->
  exists data pad tail lost,
    reencode s = data ++ Tar.zeroBlock pad
    /\ Tar.zeroBlock pad ++ trailer = tail ++ lost
    /\ sinks run.2 = sinks (absorb out (data ++ tail) w)
    /\ (sink_mode out w <> Closed ->
        content out run.2 = content out w ++ data ++ tail)
    /\ (sink_mode out w = Open -> lost = []).
Proof.
intros A r s run Hs Hc Hnil.
destruct (sendDownstream_nil gd commit tree out w Hs Hc Hnil)
  as (data & pad & tail & lost & g & E & H1 & H2).
exists data, pad, tail, lost. fold A r s in E, H1. unfold run. rewrite E.
cbn [snd]. split; [exact H1|]. split; [exact H2|].
split.
{ rewrite sinks_stepped. apply sinks_absorb_congr, sinks_launched. }
split.
{ intros Hm. rewrite content_stepped, sink_mode_launched, content_launched.
  destruct (decide _); [contradiction|]. rewrite app_assoc. reflexivity. }
intros Ho.
destruct (sendDownstream_clean gd commit tree out w Ho Hs Hc) as [g' E'].
fold A r s in E'. rewrite E in E'.
apply (f_equal (fun x : error * World => content out x.2)) in E'.
cbn [snd] in E'.
rewrite !content_stepped, sink_mode_launched, Ho in E'.
destruct (decide (Open = Closed)); [discriminate|].
apply app_inv_head in E'.
rewrite H1, <- !app_assoc in E'. apply app_inv_head in E'.
rewrite H2 in E'. rewrite <- (app_nil_r tail) in E' at 1.
apply app_inv_head in E'. symmetry. exact E'.
Qed.

End Proofs.

Lemma archive_is_deterministic_witness :
  let w1 := Toy.world (Toy.mkRepo (Some "c1"%string) ["c1"%string] 7) in
  let w2 := Toy.world (Toy.mkRepo (Some "c1"%string) ["c1"%string] 99) in
  proc_stdout (outcome (archive_argv "gd" "c1" "") w1)
    <> proc_stdout (outcome (archive_argv "gd" "c1" "") w2)
  /\ exists e g,
    (sendDownstream "gd" "c1" "" callerStream w1).1 = e
    /\ (sendDownstream "gd" "c1" "" callerStream w2).1 = e
    /\ content callerStream (sendDownstream "gd" "c1" "" callerStream w1).2
       = content callerStream (sendDownstream "gd" "c1" "" callerStream w2).2
    /\ ghost (sendDownstream "gd" "c1" "" callerStream w1).2 = g ++ ghost w1
    /\ ghost (sendDownstream "gd" "c1" "" callerStream w2).2 = g ++ ghost w2
    /\ forall h, In (GhWriteHeader h) g -> Tar.ModTime h = epoch.
Proof.
intros w1 w2. split; [vm_compute; discriminate|].
apply (archive_is_deterministic "gd" "c1" "" callerStream w1 w2);
  reflexivity.
Defined.

Lemma retry_appends_to_sink_witness :
  let w := Toy.world (Toy.mkRepo (Some "c1"%string) [] 7) in
  let a1 := sendDownstream "gd" "c1" "" callerStream w in
  let f := fetchUpstream "gd" "u" "main" a1.2 in
  let a2 := sendDownstream "gd" "c1" "" callerStream f.2 in
  a1.1 = Some (exec_ExitError 128)
  /\ FetchLatest_send "gd" "u" "main" "c1" "" false callerStream w
     = (nil_error, a2.2)
  /\ exists residue second,
       content callerStream a1.2 = content callerStream w ++ residue
       /\ content callerStream a2.2
          = content callerStream w ++ residue ++ second
       /\ residue = trailer
       /\ exists front, second = front ++ trailer.
Proof.
intros w a1 f a2.
assert (H0 : sink_mode callerStream w = Open) by reflexivity.
assert (H1 : sendDownstream "gd" "c1" "" callerStream w
             = (Some (exec_ExitError 128), a1.2))
  by (vm_compute; reflexivity).
assert (H2 : fetchUpstream "gd" "u" "main" a1.2 = (nil_error, f.2))
  by (vm_compute; reflexivity).
assert (H3 : sendDownstream "gd" "c1" "" callerStream f.2
             = (nil_error, a2.2))
  by (vm_compute; reflexivity).
destruct (retry_appends_to_sink "gd" "u" "main" "c1" "" callerStream w
            (exec_ExitError 128) a1.2 f.2 nil_error a2.2 H0 H1 H2 H3)
  as (Hrun & residue & second & C1 & C2 & C3 & Hres & Hok & _).
split; [vm_compute; reflexivity|].
split; [exact Hrun|].
exists residue, second. split; [exact C1|]. split; [exact C3|].
split.
- rewrite Hres; [vm_compute; reflexivity|vm_compute; reflexivity|].
  vm_compute. exact I.
- apply Hok. reflexivity.
Defined.

Lemma workspace_ensuring_witness :
  let w := Toy.world (Toy.mkRepo (Some "c1"%string) [] 7) in
  let gd := Path.Join ["/cache"%string; cacheKey "u"] in
  let run := preflightAndInit "u" "main" "tar" "/cache" w in
  valid "u" "main" "tar" = true
  /\ run.1 = (gd, nil_error)
  /\ match os_Stat gd w with
     | (None, w0) => run = ((gd, nil_error), w0) /\ w0 = emit (EvStat gd) w
     | (Some e, w0) =>
         if os_IsNotExist e then
           match os_MkdirAll gd 493 w0 with
           | (Some e', w1) => run = ((""%string, Some e'), w1)
           | (None, w1) =>
               (forall d, In d (Path.ancestors gd ++ [gd]) ->
                          fs w1 !! d = Some Dir)
               /\ run = (match run_err (outcome (init_argv gd) w1) with
                         | Some e' => (""%string, Some e')
                         | None => (gd, nil_error)
                         end, launched (init_argv gd) w1)
               /\ trace run.2
                  = [EvExec (init_argv gd); EvMkdirAll gd 493; EvStat gd]
                    ++ trace w
               /\ fs run.2 = fs w1
           end
         else run = ((""%string, Some e), w0) /\ w0 = emit (EvStat gd) w
     end.
Proof.
intros w gd run.
split; [reflexivity|]. split; [vm_compute; reflexivity|].
exact (workspace_ensuring "u" "main" "tar" "/cache" w eq_refl).
Defined.

Lemma workspace_depends_on_repo_only_witness :
  let w1 := Toy.world (Toy.mkRepo (Some "c1"%string) [] 7) in
  let gd := Path.Join ["/cache"%string; cacheKey "u"] in
  let run1 := preflightAndInit "u" "main" "tar" "/cache" w1 in
  let run2 := preflightAndInit "u" "dev" "tgz" "/cache" run1.2 in
  run1.1 = (gd, nil_error)
  /\ run2.1 = (gd, nil_error)
  /\ gd = Path.Join ["/cache"%string; cacheKey "u"]
  /\ preflightAndInit "u" "main" "tar" "/cache"
     = preflightAndInit "u" "dev" "tgz" "/cache".
Proof.
intros w1 gd run1 run2.
assert (H1 : preflightAndInit "u" "main" "tar" "/cache" w1
             = ((gd, nil_error), run1.2)) by (vm_compute; reflexivity).
assert (H2 : preflightAndInit "u" "dev" "tgz" "/cache" run1.2
             = ((gd, nil_error), run2.2)) by (vm_compute; reflexivity).
destruct (workspace_depends_on_repo_only "u" "/cache" "main" "tar" "dev" "tgz"
            w1 run1.2 gd gd run1.2 run2.2 H1 H2) as (_ & Hgd & Hsame).
split; [vm_compute; reflexivity|]. split; [vm_compute; reflexivity|].
split; [exact Hgd|exact Hsame].
Defined.

Lemma validation_precedes_effects_witness :
  let w := Toy.world (Toy.mkRepo (Some "c1"%string) [] 7) in
  ("u"%string = ""%string \/ "main"%string = ""%string
   \/ ("zip"%string <> "tar"%string /\ "zip"%string <> "tgz"%string))
  /\ exists msg,
       FetchLatest "u" "main" "c1" "" "zip" "/cache" "out" callerStream w
       = (Some (errors_New msg), w).
Proof.
intros w.
assert (H : "u"%string = ""%string \/ "main"%string = ""%string
            \/ ("zip"%string <> "tar"%string /\ "zip"%string <> "tgz"%string))
  by (right; right; split; discriminate).
split; [exact H|].
exact (validation_precedes_effects "u" "main" "c1" "" "zip" "/cache" "out"
         callerStream w H).
Defined.


(** ** Test vectors *)

(** SHA-256 of the empty message, of one block and of two blocks
    (FIPS 180-4 examples). *)
Example sha_empty :
  Hex.EncodeToString (SHA256.Sum256 []) =
  "e3b0c44298fc1c149afbf4c8996fb92427ae41e4649b934ca495991b7852b855"%string.
Proof. vm_compute. reflexivity. Qed.

Example sha_abc :
  Hex.EncodeToString (SHA256.Sum256 (list_byte_of_string "abc")) =
  "ba7816bf8f01cfea414140de5dae2223b00361a396177a9cb410ff61f20015ad"%string.
Proof. vm_compute. reflexivity. Qed.

Example sha_two_blocks :
  Hex.EncodeToString (SHA256.Sum256 (list_byte_of_string
    "abcdbcdecdefdefgefghfghighijhijkijkljklmklmnlmnomnopnopq")) =
  "248d6a61d20638b8e5c026930c3e6039a33ce45964ff2167f6ecedd419db06c1"%string.
Proof. vm_compute. reflexivity. Qed.

(** The table of round constants has sixty-four words, from
    [0x428a2f98] to [0xc67178f2]. *)
Example K_table :
  List.length SHA256._K = 64%nat
  /\ head SHA256._K = Some 0x428a2f98
  /\ last SHA256._K = Some 0xc67178f2.
Proof. vm_compute. auto. Qed.

(** [filepath.Join] cleans the joined path, so a commit with dot-dot
    segments names a file next to the output directory. *)
Example join_follows_dotdot :
  Path.Join ["out"%string; ("../x" ++ "." ++ "tar")%string] = "x.tar"%string.
Proof. vm_compute. reflexivity. Qed.

(** ** Runs of the test double *)

Lemma sendDownstream_reencodes_witness :
  let w := Toy.world (Toy.mkRepo (Some "c1"%string) ["c1"%string] 7) in
  let A := archive_argv "gd" "c1" "" in
  let r := outcome A w in
  let s := tar_decode (proc_stdout r) in
  let run := sendDownstream "gd" "c1" "" callerStream w in
  s = Tar.Entry (Toy.header x07) [x2a] (Tar.End io_EOF)
  /\ run.1 = (if decide (ending s = io_EOF) then exit_err r
              else Some (ending s))
  /\ content callerStream run.2
     = content callerStream w ++ reencode s ++ trailer
  /\ execs (trace run.2) = A :: execs (trace w).
Proof.
intros w A r s run.
assert (Hs : s = Tar.Entry (Toy.header x07) [x2a] (Tar.End io_EOF))
  by (vm_compute; reflexivity).
assert (H1 : sink_mode callerStream w = Open) by reflexivity.
assert (H2 : start_err r = nil_error) by (vm_compute; reflexivity).
assert (H3 : clean s).
{ rewrite Hs. cbn [clean]. split; [eexists; vm_compute; reflexivity|].
  split; [vm_compute; split; discriminate|].
  split; [vm_compute; reflexivity|exact I]. }
split; [exact Hs|].
exact (sendDownstream_reencodes "gd" "c1" "" callerStream w H1 H2 H3).
Defined.

Lemma sendDownstream_start_failure_witness :
  let A := archive_argv "gd" "c1" "" in
  @sendDownstream Toy.no_git "gd" "c1" "" callerStream Toy.bare
  = (Some exec_ErrNotFound, launched A Toy.bare)
  /\ sinks (launched A Toy.bare) = sinks Toy.bare
  /\ ghost (launched A Toy.bare) = ghost Toy.bare
  /\ log_lines (launched A Toy.bare) = log_lines Toy.bare ++ [log_line A].
Proof.
intros A.
assert (H : start_err (outcome A Toy.bare) = Some exec_ErrNotFound)
  by reflexivity.
exact (@sendDownstream_start_failure Toy.no_git "gd" "c1" "" callerStream
         Toy.bare exec_ErrNotFound H).
Defined.

Lemma workspace_is_initialised_once_witness :
  let w := Toy.world (Toy.mkRepo (Some "c1"%string) [] 7) in
  let gd := Path.Join ["/cache"%string; cacheKey "u"] in
  let w1 := (preflightAndInit "u" "main" "tar" "/cache" w).2 in
  execs (trace w1) = [init_argv gd]
  /\ preflightAndInit "u" "dev" "tgz" "/cache" w1
     = ((gd, nil_error), emit (EvStat gd) w1).
Proof.
intros w gd w1.
assert (H1 : preflightAndInit "u" "main" "tar" "/cache" w
             = ((gd, nil_error), w1)) by (vm_compute; reflexivity).
assert (H2 : valid "u" "dev" "tgz" = true) by reflexivity.
split; [vm_compute; reflexivity|].
exact (workspace_is_initialised_once "u" "/cache" "main" "tar" "dev" "tgz"
         w w1 w1 gd H1 H2 eq_refl eq_refl).
Defined.

Lemma failed_init_is_not_repeated_witness :
  let gd := Path.Join ["/cache"%string; cacheKey "u"] in
  let w1 := (@preflightAndInit Toy.no_git "u" "main" "tar" "/cache"
               Toy.bare).2 in
  (@preflightAndInit Toy.no_git "u" "main" "tar" "/cache" Toy.bare).1
  = (""%string, Some exec_ErrNotFound)
  /\ (exists x, fs w1 !! gd = Some x)
  /\ preflightAndInit "u" "dev" "tgz" "/cache" w1
     = ((gd, nil_error), emit (EvStat gd) w1).
Proof.
intros gd w1.
assert (H1 : @preflightAndInit Toy.no_git "u" "main" "tar" "/cache" Toy.bare
             = ((""%string, Some exec_ErrNotFound), w1))
  by (vm_compute; reflexivity).
assert (H2 : execs (trace w1) = init_argv gd :: execs (trace Toy.bare))
  by (vm_compute; reflexivity).
assert (H3 : valid "u" "dev" "tgz" = true) by reflexivity.
split; [vm_compute; reflexivity|].
exact (@failed_init_is_not_repeated Toy.no_git "u" "/cache" "main" "tar"
         "dev" "tgz" Toy.bare w1 "" exec_ErrNotFound H1 H2 H3).
Defined.

Lemma head_failure_opens_no_sink_witness :
  let w := Toy.world (Toy.mkRepo None [] 7) in
  let gd := Path.Join ["/cache"%string; cacheKey "u"] in
  let w1 := (preflightAndInit "u" "main" "tgz" "/cache" w).2 in
  let w2 := (getHeadCommit gd "u" "main" w1).2 in
  FetchLatest "u" "main" "" "" "tgz" "/cache" "out" callerStream w
  = (Some (exec_ExitError 128), w2)
  /\ fs w2 = fs w1
  /\ out_buf w2 = out_buf w1
  /\ os_Stdout w2 = os_Stdout w1
  /\ creates (trace w2) = creates (trace w1).
Proof.
intros w gd w1 w2.
assert (H1 : preflightAndInit "u" "main" "tgz" "/cache" w
             = ((gd, nil_error), w1)) by (vm_compute; reflexivity).
assert (H2 : getHeadCommit gd "u" "main" w1
             = ((""%string, Some (exec_ExitError 128)), w2))
  by (vm_compute; reflexivity).
exact (head_failure_opens_no_sink "u" "main" "" "tgz" "/cache" "out"
         callerStream w w1 w2 gd "" (exec_ExitError 128) H1 H2).
Defined.

Lemma cache_hit_needs_no_network_witness :
  let w := Toy.world (Toy.mkRepo (Some "c1"%string) ["c1"%string] 7) in
  let gd := Path.Join ["/cache"%string; cacheKey "u"] in
  let w1 := (preflightAndInit "u" "main" "tgz" "/cache" w).2 in
  let A := archive_argv gd "c1" "" in
  let r := outcome A w1 in
  let s := tar_decode (proc_stdout r) in
  let run :=
    FetchLatest "u" "main" "c1" "" "tgz" "/cache" "" callerStream w in
  s = Tar.Entry (Toy.header x07) [x2a] (Tar.End io_EOF)
  /\ run.1 = nil_error
  /\ execs (trace run.2) = A :: execs (trace w1)
  /\ out_buf run.2 = out_buf w1 ++ packed "tgz" (reencode s ++ trailer)
  /\ fs run.2 = fs w1.
Proof.
intros w gd w1 A r s run.
assert (Hs : s = Tar.Entry (Toy.header x07) [x2a] (Tar.End io_EOF))
  by (vm_compute; reflexivity).
assert (H1 : preflightAndInit "u" "main" "tgz" "/cache" w
             = ((gd, nil_error), w1)) by (vm_compute; reflexivity).
assert (H2 : "c1"%string <> ""%string) by discriminate.
assert (H3 : start_err r = nil_error) by (vm_compute; reflexivity).
assert (H4 : exit_err r = nil_error) by (vm_compute; reflexivity).
assert (H5 : clean s).
{ rewrite Hs. cbn [clean]. split; [eexists; vm_compute; reflexivity|].
  split; [vm_compute; split; discriminate|].
  split; [vm_compute; reflexivity|exact I]. }
assert (H6 : ending s = io_EOF) by (rewrite Hs; reflexivity).
assert (H7 : out_room w1 = None) by (vm_compute; reflexivity).
split; [exact Hs|].
exact (cache_hit_needs_no_network "u" "main" "c1" "" "tgz" "/cache" w w1 gd
         H1 H2 H3 H4 H5 H6 H7).
Defined.

Lemma workspace_is_entry_of_cacheDir_witness :
  let w := Toy.world (Toy.mkRepo (Some "c1"%string) [] 7) in
  let gd := Path.Join ["/cache/./"%string; cacheKey "u"] in
  let w1 := (preflightAndInit "u" "main" "tar" "/cache/./" w).2 in
  Path.Clean "/cache/./" = "/cache"%string
  /\ gd = child (Path.Clean "/cache/./") (cacheKey "u")
  /\ plain_name (cacheKey "u") = true.
Proof.
intros w gd w1.
assert (H1 : preflightAndInit "u" "main" "tar" "/cache/./" w
             = ((gd, nil_error), w1)) by (vm_compute; reflexivity).
split; [vm_compute; reflexivity|].
exact (workspace_is_entry_of_cacheDir "u" "main" "tar" "/cache/./" w w1 gd
         H1).
Defined.

Lemma output_file_is_entry_of_outputDir_witness :
  let w := Toy.world (Toy.mkRepo (Some "c1"%string) ["c1"%string] 7) in
  let name := ("c1" ++ "." ++ "tar")%string in
  let fpath := child (Path.Clean "out/../out") name in
  let run :=
    FetchLatest_sink "gd" "u" "main" "c1" "" "tar" false "out/../out"
      callerStream w in
  fpath = "out/c1.tar"%string
  /\ plain_name name = true
  /\ creates (trace run.2) = fpath :: creates (trace w)
  /\ os_Stdout run.2 = os_Stdout w ++ list_byte_of_string fpath.
Proof.
intros w name fpath run.
assert (H1 : "out/../out"%string <> ""%string) by discriminate.
assert (H2 : no_slash "c1" = true) by reflexivity.
assert (H3 : "tar"%string = "tar"%string \/ "tar"%string = "tgz"%string)
  by (left; reflexivity).
split; [vm_compute; reflexivity|].
exact (output_file_is_entry_of_outputDir "gd" "u" "main" "c1" "" "tar" false
         "out/../out" callerStream w H1 H2 H3).
Defined.

Lemma nil_result_loses_at_most_the_trailer_witness :
  let w := @mkWorld Toy.platform ∅ ∅
             (Toy.mkRepo (Some "c1"%string) ["c1"%string] 7)
             [] [] (Some 3%nat) [] [] [] [] in
  let A := archive_argv "gd" "c1" "" in
  let r := outcome A w in
  let s := tar_decode (proc_stdout r) in
  let run := sendDownstream "gd" "c1" "" callerStream w in
  out_buf run.2 = [x01; x00; x2a]
  /\ exists data pad tail lost,
       reencode s = data ++ Tar.zeroBlock pad
       /\ Tar.zeroBlock pad ++ trailer = tail ++ lost
       /\ sinks run.2 = sinks (absorb callerStream (data ++ tail) w)
       /\ (sink_mode callerStream w <> Closed ->
           content callerStream run.2
           = content callerStream w ++ data ++ tail)
       /\ (sink_mode callerStream w = Open -> lost = []).
Proof.
intros w A r s run.
assert (Hs : s = Tar.Entry (Toy.header x07) [x2a] (Tar.End io_EOF))
  by (vm_compute; reflexivity).
assert (H1 : start_err r = nil_error) by (vm_compute; reflexivity).
assert (H2 : clean s).
{ rewrite Hs. cbn [clean]. split; [eexists; vm_compute; reflexivity|].
  split; [vm_compute; split; discriminate|].
  split; [vm_compute; reflexivity|exact I]. }
assert (H3 : run.1 = nil_error) by (vm_compute; reflexivity).
split; [vm_compute; reflexivity|].
exact (nil_result_loses_at_most_the_trailer "gd" "c1" "" callerStream w
         H1 H2 H3).
Defined.
